(** * gowc: a verification development for the [wc] clone in [main.go]

    The Go program counts lines, words and bytes of its inputs.  This file
    embeds [count], [formatOutput] and the driver loop of [main] as Rocq
    functions and proves the properties the specification states about
    them.

    Modelling choices, all taken from the source:
    - [int64] counters are integers of [Z], every addition wrapped to the
      signed 64-bit range ([Int64.wrap]);
    - an [io.Reader] is the script of the results its successive [Read]
      calls return; a script that has run out answers [(0, io.EOF)];
    - bytes are [Byte.byte]; Go strings are [string];
    - the driver writes an explicit trace of events (open, close, output
      lines, diagnostics) and returns the exit status. *)

From Stdlib Require Import ZArith List Bool Lia Permutation Finite.
From Stdlib Require Import Strings.String Strings.Ascii Strings.Byte.
Import ListNotations.

Local Open Scope Z_scope.

(** ** Signed 64-bit arithmetic *)

Module Int64.

Definition min_int : Z := - 2 ^ 63.
Definition max_int : Z := 2 ^ 63 - 1.

(** Two's complement wrap-around of Go's [int64]. *)
Definition wrap (z : Z) : Z := (z + 2 ^ 63) mod 2 ^ 64 - 2 ^ 63.

Definition add (a b : Z) : Z := wrap (a + b).

Definition in_range (z : Z) : Prop := min_int <= z <= max_int.

End Int64.

(** ** Data model *)

(** [Counts] holds the line, word, and byte counts. *)
Record Counts : Set := mkCounts { Lines : Z; Words : Z; Bytes : Z }.

(** [Flags] holds the flags indicating which counts to display. *)
Record Flags : Set :=
  mkFlags { ShowLines : bool; ShowWords : bool; ShowBytes : bool }.

Definition bufferSize : Z := 64 * 1024.

(** The zero value of [Counts] ([var counts Counts]). *)
Definition zeroCounts : Counts := mkCounts 0 0 0.

Definition Counts_in_range (c : Counts) : Prop :=
  Int64.in_range (Lines c) /\ Int64.in_range (Words c) /\
  Int64.in_range (Bytes c).

(** ** The Go library functions the program calls *)

Module unicode.

Definition MaxLatin1 : Z := 255.

(** Go's [unicode.IsSpace]: in the Latin-1 range the space characters are
    tab, newline, vertical tab, form feed, carriage return, space, U+0085
    and U+00A0; above it, the runes of the [White_Space] table. *)
Definition IsSpace (r : Z) : bool :=
  if (0 <=? r) && (r <=? MaxLatin1) then
    (r =? 9) || (r =? 10) || (r =? 11) || (r =? 12) || (r =? 13)
    || (r =? 32) || (r =? 133) || (r =? 160)
  else
    (r =? 5760) || ((8192 <=? r) && (r <=? 8202)) || (r =? 8232)
    || (r =? 8233) || (r =? 8239) || (r =? 8287) || (r =? 12288).

End unicode.

(** [rune(char)] for a byte [char]. *)
Definition rune (char : byte) : Z := Z.of_N (Byte.to_N char).

(** The byte ['\n']. *)
Definition newline : byte := x0a.

(** ** Errors and readers *)

(** An [error] value: the sentinel [io.EOF], or any other error with the
    text its [Error()] method returns. *)
Inductive error : Set :=
| io_EOF : error
| other_error (msg : string) : error.

Definition Error (e : error) : string :=
  match e with
  | io_EOF => "EOF"
  | other_error msg => msg
  end.

(** [fmt.Errorf("error reading input: %w", err)]. *)
Definition wrap_read_error (e : error) : error :=
  other_error ("error reading input: " ++ Error e).

(** What one call [n, err := br.Read(buf)] returns: the [n] bytes stored in
    [buf[0:n]] and [err].  With a buffer of [bufferSize] bytes the buffered
    reader hands every call to the reader below it. *)
Record ReadResult : Set := mkRead { data : list byte; err : option error }.

(** An [io.Reader] is the list of the results of its successive [Read]
    calls; once the list is used up, [Read] answers [(0, io.EOF)]. *)
Definition Reader : Set := list ReadResult.

(** What [Read] answers at the end of the stream. *)
Definition at_EOF : ReadResult := mkRead [] (Some io_EOF).

(** The contract of [Read]: at most [len(buf)] bytes per call. *)
Definition valid_read (rr : ReadResult) : Prop :=
  Z.of_nat (List.length (data rr)) <= bufferSize.

(** ** [count] *)

(** The state of the scanning loop: the counters and [inWord]. *)
Record scan_state : Set := mkScan { counts : Counts; inWord : bool }.

(** One iteration of [for i := 0; i < n; i++], on [char := buf[i]]. *)
Definition count_char (st : scan_state) (char : byte) : scan_state :=
  let c := counts st in
  let c :=
    if Byte.eqb char newline
    then mkCounts (Int64.add (Lines c) 1) (Words c) (Bytes c)
    else c in
  let isSpace := unicode.IsSpace (rune char) in
  if isSpace then mkScan c false
  else if negb (inWord st)
       then mkScan (mkCounts (Lines c) (Int64.add (Words c) 1) (Bytes c)) true
       else mkScan c (inWord st).

(** The body of the outer loop up to the error test: add [n] to the byte
    count, then scan [buf[0:n]]. *)
Definition count_chunk (st : scan_state) (buf : list byte) : scan_state :=
  let c := counts st in
  let c :=
    mkCounts (Lines c) (Words c) (Int64.add (Bytes c) (Z.of_nat (List.length buf))) in
  fold_left count_char buf (mkScan c (inWord st)).

(** The outer [for] loop.  It returns the counters, the error, and the
    reader as the calls left it. *)
Fixpoint count_loop (br : Reader) (st : scan_state)
  : Counts * option error * Reader :=
  match br with
  | [] =>
      let st := count_chunk st (data at_EOF) in
      (counts st, None, [])
  | rr :: br' =>
      let st := count_chunk st (data rr) in
      match err rr with
      | None => count_loop br' st
      | Some io_EOF => (counts st, None, br')
      | Some e => (counts st, Some (wrap_read_error e), br')
      end
  end.

Definition count (reader : Reader) : Counts * option error * Reader :=
  count_loop reader (mkScan zeroCounts false).

(** The two values the Go function returns. *)
Definition count_result (reader : Reader) : Counts * option error :=
  fst (count reader).

Definition count_counts (reader : Reader) : Counts := fst (count_result reader).
Definition count_err (reader : Reader) : option error := snd (count_result reader).
Definition count_rest (reader : Reader) : Reader := snd (count reader).

(** ** Readers over a given byte sequence *)

(** The bytes a reader hands out up to and including its first call that
    reports an error (the end of the stream or a failure). *)
Fixpoint delivered (r : Reader) : list byte :=
  match r with
  | [] => []
  | rr :: r' =>
      match err rr with
      | None => data rr ++ delivered r'
      | Some _ => data rr
      end
  end.

(** The error, other than [io.EOF], that ends the reading, if any. *)
Fixpoint failure (r : Reader) : option error :=
  match r with
  | [] => None
  | rr :: r' =>
      match err rr with
      | None => failure r'
      | Some io_EOF => None
      | Some e => Some e
      end
  end.

(** [S] cut into pieces of [k] bytes (the last one may be shorter). *)
Fixpoint chunks_fuel (fuel k : nat) (S : list byte) : list (list byte) :=
  match fuel with
  | O => []
  | Datatypes.S fuel' =>
      match S with
      | [] => []
      | _ => firstn k S :: chunks_fuel fuel' k (skipn k S)
      end
  end.

Definition chunks (k : nat) (S : list byte) : list (list byte) :=
  chunks_fuel (List.length S) k S.

(** A reader that delivers [S] in chunks of [k] bytes and then reports the
    end of the stream. *)
Definition chunked_reader (k : nat) (S : list byte) : Reader :=
  map (fun c => mkRead c None) (chunks k S).

(** A reader that delivers the whole of [S] in one call. *)
Definition whole_reader (S : list byte) : Reader := [mkRead S None].

(** Counting a byte sequence: [count] on the one-call reader. *)
Definition count_bytes (S : list byte) : Counts := count_counts (whole_reader S).

(** ** The quantities the specification speaks of *)

Definition is_space (b : byte) : bool := unicode.IsSpace (rune b).

(** The number of bytes equal to ['\n']. *)
Definition newlines (S : list byte) : Z :=
  Z.of_nat (List.length (filter (fun b => Byte.eqb b newline) S)).

(** [S[i:j]] is a maximal run of non-whitespace bytes: it is not empty, none
    of its bytes is whitespace, and it is bounded on each side by a
    whitespace byte or by the end of the sequence. *)
Definition maximal_run (S : list byte) (i j : nat) : Prop :=
  (i < j <= List.length S)%nat /\
  (forall k, (i <= k < j)%nat -> exists b, nth_error S k = Some b /\ is_space b = false) /\
  (i = 0%nat \/ exists b, nth_error S (i - 1) = Some b /\ is_space b = true) /\
  (j = List.length S \/ exists b, nth_error S j = Some b /\ is_space b = true).

Definition space_at (S : list byte) (k : nat) : bool :=
  match nth_error S k with
  | Some b => is_space b
  | None => false
  end.

Definition nonspace_at (S : list byte) (k : nat) : bool :=
  match nth_error S k with
  | Some b => negb (is_space b)
  | None => false
  end.

Definition is_maximal_run (S : list byte) (ij : nat * nat) : bool :=
  let '(i, j) := ij in
  (i <? j)%nat && (j <=? List.length S)%nat
  && forallb (nonspace_at S) (seq i (j - i))
  && ((i =? 0)%nat || space_at S (i - 1))
  && ((j =? List.length S)%nat || space_at S j).

(** All the maximal runs of non-whitespace bytes of [S], as pairs of a
    start and an end index. *)
Definition maximal_runs (S : list byte) : list (nat * nat) :=
  filter (is_maximal_run S)
         (list_prod (seq 0 (List.length S + 1)) (seq 0 (List.length S + 1))).

Definition bytes_of (s : string) : list byte := list_byte_of_string s.

Definition nl : string := String "010"%char EmptyString.

(** The number of places where a word begins in [S], scanning with the
    state machine of the specification: [prev] tells whether the byte
    before [S] was part of a word. *)
Fixpoint word_starts (prev : bool) (S : list byte) : nat :=
  match S with
  | [] => 0
  | b :: S' =>
      if is_space b then word_starts false S'
      else ((if prev then 0 else 1) + word_starts true S')%nat
  end.

(** Whether the last byte of [S] is part of a word ([prev] when [S] is
    empty). *)
Fixpoint ends_in_word (prev : bool) (S : list byte) : bool :=
  match S with
  | [] => prev
  | b :: S' => ends_in_word (negb (is_space b)) S'
  end.

(** The stream is short enough for its length to be an [int64]. *)
Definition fits_int64 (S : list byte) : Prop :=
  Z.of_nat (List.length S) <= Int64.max_int.

Definition last_byte (A : list byte) : option byte :=
  match rev A with
  | [] => None
  | b :: _ => Some b
  end.

Definition first_byte (B : list byte) : option byte := hd_error B.

(** The byte on one side of the boundary between [A] and [B] is
    whitespace. *)
Definition boundary_is_space (A B : list byte) : Prop :=
  (exists b, last_byte A = Some b /\ is_space b = true) \/
  (exists b, first_byte B = Some b /\ is_space b = true).

(** A word begins at index [k] of [S]. *)
Definition is_start (prev : bool) (S : list byte) (k : nat) : bool :=
  nonspace_at S k && (if (k =? 0)%nat then negb prev else space_at S (k - 1)).

(** The scanning state with [n] more bytes counted. *)
Definition add_bytes (n : Z) (st : scan_state) : scan_state :=
  let c := counts st in
  mkScan (mkCounts (Lines c) (Words c) (Int64.add (Bytes c) n)) (inWord st).

(** ** [formatOutput] *)

Local Open Scope string_scope.

(** The decimal digit [d], [0 <= d <= 9]. *)
Definition digit (d : Z) : ascii := ascii_of_nat (48 + Z.to_nat d).

(** The decimal digits of [n >= 0], most significant first. *)
Fixpoint digits_fuel (fuel : nat) (n : Z) : string :=
  match fuel with
  | O => String (digit (n mod 10)) ""
  | Datatypes.S fuel' =>
      if (n <? 10)%Z then String (digit n) ""
      else digits_fuel fuel' (n / 10) ++ String (digit (n mod 10)) ""
  end.

Definition digits (n : Z) : string := digits_fuel (Z.to_nat (Z.log2 n)) n.

(** The number a text of decimal digits stands for, read after [acc]. *)
Fixpoint decimal_value (acc : Z) (s : string) : Z :=
  match s with
  | "" => acc
  | String c s' => decimal_value (10 * acc + (Z.of_nat (nat_of_ascii c) - 48)) s'
  end.

(** The verb [%d] of package [fmt]. *)
Definition format_d (n : Z) : string :=
  if (n <? 0)%Z then "-" ++ digits (- n) else digits n.

Fixpoint spaces (n : nat) : string :=
  match n with
  | O => ""
  | Datatypes.S n' => String " " (spaces n')
  end.

(** Padding on the left with spaces up to [width] characters; a longer
    text is left whole. *)
Definition pad_left (width : nat) (s : string) : string :=
  spaces (width - String.length s) ++ s.

(** [fmt.Sprintf("%*d", width, n)]. *)
Definition Sprintf_width_d (width : nat) (n : Z) : string :=
  pad_left width (format_d n).

(** [strings.Join(parts, "")]. *)
Definition Join (parts : list string) : string := String.concat "" parts.

Definition width : nat := 8.

Definition formatOutput (counts : Counts) (flags : Flags) (filename : string)
  : string :=
  let parts : list string := [] in
  let parts :=
    if ShowLines flags
    then (parts ++ [Sprintf_width_d width (Lines counts)])%list else parts in
  let parts :=
    if ShowWords flags
    then (parts ++ [Sprintf_width_d width (Words counts)])%list else parts in
  let parts :=
    if ShowBytes flags
    then (parts ++ [Sprintf_width_d width (Bytes counts)])%list else parts in
  let parts :=
    if negb (filename =? "")
    then (parts ++ [(" " ++ filename)%string])%list else parts in
  Join parts.

(** One field of the output line as the specification describes it. *)
Definition field (selected : bool) (n : Z) : string :=
  if selected then pad_left 8 (format_d n) else "".

Definition name_part (name : string) : string :=
  if name =? "" then "" else " " ++ name.

Definition selected_fields (flags : Flags) : nat :=
  ((if ShowLines flags then 1 else 0) + (if ShowWords flags then 1 else 0)
   + (if ShowBytes flags then 1 else 0))%nat.

(** The length of the output line if every field took exactly eight
    characters. *)
Definition fixed_width_length (flags : Flags) (name : string) : nat :=
  (8 * selected_fields flags + String.length (name_part name))%nat.

(** ** The driver, [main] *)

(** What [os.Open(filename)] returns. *)
Inductive open_result : Set :=
| open_ok (content : Reader) : open_result
| open_fails (e : error) : open_result.

(** The surroundings of one run of the program. *)
Record World : Set := mkWorld {
  Args0 : string;                 (* os.Args[0] *)
  fs : string -> open_result;     (* the files os.Open finds *)
  stdin : Reader                  (* os.Stdin *)
}.

(** What a run does, as seen from outside.  Files are numbered in the
    order in which they are opened. *)
Inductive event : Set :=
| ev_Open (file : nat) (name : string)   (* os.Open succeeded *)
| ev_Close (file : nat)                  (* file.Close() *)
| ev_Println (line : string)             (* fmt.Println(line) *)
| ev_Stderr (text : string).             (* fmt.Fprintf(os.Stderr, ...) *)

(** The variables of [main] that live across the iterations of the loop
    over [filenames], with the deferred calls and the events so far. *)
Record loop_state : Set := mkLoop {
  totalCounts : Counts;
  filesProcessed : Z;
  errorsOccurred : bool;
  deferred : list nat;      (* files whose Close is deferred, last first *)
  stdin_now : Reader;       (* os.Stdin as the reads so far have left it *)
  opened : nat;             (* how many files have been opened *)
  trace : list event        (* oldest first *)
}.

Definition emit (e : event) (st : loop_state) : loop_state :=
  mkLoop (totalCounts st) (filesProcessed st) (errorsOccurred st)
         (deferred st) (stdin_now st) (opened st) (trace st ++ [e])%list.

Definition set_errorsOccurred (st : loop_state) : loop_state :=
  mkLoop (totalCounts st) (filesProcessed st) true
         (deferred st) (stdin_now st) (opened st) (trace st).

Definition set_stdin (r : Reader) (st : loop_state) : loop_state :=
  mkLoop (totalCounts st) (filesProcessed st) (errorsOccurred st)
         (deferred st) r (opened st) (trace st).

(** [file, err = os.Open(filename)] succeeded, then [defer file.Close()]. *)
Definition open_and_defer (filename : string) (st : loop_state) : loop_state :=
  let file := opened st in
  mkLoop (totalCounts st) (filesProcessed st) (errorsOccurred st)
         (file :: deferred st) (stdin_now st) (Datatypes.S file)
         (trace st ++ [ev_Open file filename])%list.

(** [totalCounts.Lines += counts.Lines] and so on, [filesProcessed++]. *)
Definition add_to_totals (c : Counts) (st : loop_state) : loop_state :=
  let t := totalCounts st in
  mkLoop (mkCounts (Int64.add (Lines t) (Lines c))
                   (Int64.add (Words t) (Words c))
                   (Int64.add (Bytes t) (Bytes c)))
         (filesProcessed st + 1) (errorsOccurred st)
         (deferred st) (stdin_now st) (opened st) (trace st).

(** The text of ["%s: %s: %v\n"] with [os.Args[0]], [filename], [err]. *)
Definition diagnostic (w : World) (filename : string) (e : error) : string :=
  Args0 w ++ ": " ++ filename ++ ": " ++ Error e ++ nl.

(** The text of ["%s: %v\n"] with [os.Args[0]], [err]. *)
Definition diagnostic_stdin (w : World) (e : error) : string :=
  Args0 w ++ ": " ++ Error e ++ nl.

(** The loop body from [counts, err := count(currentReader)] on.  [file]
    is the opened file, or [None] for the nil pointer. *)
Definition count_and_report (w : World) (flags : Flags) (file : option nat)
    (filename : string) (currentReader : Reader) (st : loop_state)
  : loop_state :=
  let '(counts, err, rest) := count currentReader in
  let st := match file with
            | None => set_stdin rest st    (* the reads were on os.Stdin *)
            | Some _ => st
            end in
  match err with
  | Some e =>
      let st := emit (ev_Stderr (diagnostic w filename e)) st in
      let st := set_errorsOccurred st in
      match file with
      | Some f => emit (ev_Close f) st
      | None => st
      end
  | None =>
      let st := emit (ev_Println (formatOutput counts flags filename)) st in
      add_to_totals counts st
  end.

(** One iteration of [for _, filename := range filenames]. *)
Definition process_file (w : World) (flags : Flags) (st : loop_state)
    (filename : string) : loop_state :=
  if filename =? "-" then
    count_and_report w flags None "" (stdin_now st) st
  else
    match fs w filename with
    | open_fails e =>
        let st := emit (ev_Stderr (diagnostic w filename e)) st in
        set_errorsOccurred st
    | open_ok content =>
        let file := opened st in
        let st := open_and_defer filename st in
        count_and_report w flags (Some file) filename content st
    end.

Definition process_files (w : World) (flags : Flags) (filenames : list string)
    (st : loop_state) : loop_state :=
  fold_left (process_file w flags) filenames st.

(** The defaults after [flag.Parse()]: with no flag given, all three. *)
Definition default_flags (flags : Flags) : Flags :=
  if negb (ShowLines flags) && negb (ShowWords flags) && negb (ShowBytes flags)
  then mkFlags true true true
  else flags.

Definition initial_state (w : World) : loop_state :=
  mkLoop zeroCounts 0 false [] (stdin w) 0 [].

(** [main] after [flag.Parse()] has given the flags and the positional
    arguments.  The result is the events of the run and the exit status. *)
Definition main (w : World) (flags : Flags) (filenames : list string)
  : list event * Z :=
  let flags := default_flags flags in
  match filenames with
  | [] =>
      let '(counts, err, _) := count (stdin w) in
      match err with
      | Some e => ([ev_Stderr (diagnostic_stdin w e)], 1)    (* os.Exit(1) *)
      | None => ([ev_Println (formatOutput counts flags "")], 0)
      end
  | _ =>
      let st := process_files w flags filenames (initial_state w) in
      let st :=
        if (1 <? filesProcessed st)%Z
        then emit (ev_Println (formatOutput (totalCounts st) flags "total")) st
        else st in
      if errorsOccurred st
      then (trace st, 1)      (* os.Exit(1): the deferred calls do not run *)
      else ((trace st ++ map ev_Close (deferred st))%list, 0)
  end.

(** ** The run as the specification describes it *)

(** What became of one source. *)
Inductive outcome : Set :=
| Counted (name : string) (c : Counts)
| OpenFailed (name : string) (e : error)
| CountFailed (name : string) (e : error).

(** The outcome of the source [filename], and standard input after it. *)
Definition source_outcome (w : World) (stdin_now : Reader) (filename : string)
  : outcome * Reader :=
  if filename =? "-" then
    match count stdin_now with
    | (c, None, rest) => (Counted "" c, rest)
    | (_, Some e, rest) => (CountFailed "" e, rest)
    end
  else
    match fs w filename with
    | open_fails e => (OpenFailed filename e, stdin_now)
    | open_ok content =>
        match count_result content with
        | (c, None) => (Counted filename c, stdin_now)
        | (_, Some e) => (CountFailed filename e, stdin_now)
        end
    end.

Fixpoint outcomes (w : World) (stdin_now : Reader) (filenames : list string)
  : list outcome :=
  match filenames with
  | [] => []
  | filename :: rest =>
      let '(o, stdin_next) := source_outcome w stdin_now filename in
      o :: outcomes w stdin_next rest
  end.

Definition is_failure (o : outcome) : bool :=
  match o with
  | Counted _ _ => false
  | _ => true
  end.

(** The counts of the sources that succeeded, in order. *)
Fixpoint successes (os : list outcome) : list (string * Counts) :=
  match os with
  | [] => []
  | Counted name c :: os' => (name, c) :: successes os'
  | _ :: os' => successes os'
  end.

(** The diagnostics of the sources that failed, in order. *)
Fixpoint diagnostics (w : World) (os : list outcome) : list string :=
  match os with
  | [] => []
  | Counted _ _ :: os' => diagnostics w os'
  | OpenFailed name e :: os' => diagnostic w name e :: diagnostics w os'
  | CountFailed name e :: os' => diagnostic w name e :: diagnostics w os'
  end.

Definition result_line (flags : Flags) (nc : string * Counts) : string :=
  formatOutput (snd nc) flags (fst nc).

(** The field-wise sum of a list of counts. *)
Definition sum_counts (cs : list Counts) : Counts :=
  mkCounts (fold_right Z.add 0 (map Lines cs))
           (fold_right Z.add 0 (map Words cs))
           (fold_right Z.add 0 (map Bytes cs)).

(** Field-wise [int64] addition, as [main] adds a source to the total. *)
Definition add_counts (t c : Counts) : Counts :=
  mkCounts (Int64.add (Lines t) (Lines c))
           (Int64.add (Words t) (Words c))
           (Int64.add (Bytes t) (Bytes c)).

(** The outcomes of a run: with no file name the one source is standard
    input, as for the name ["-"]. *)
Definition run_outcomes (w : World) (filenames : list string) : list outcome :=
  match filenames with
  | [] => outcomes w (stdin w) ["-"]
  | _ => outcomes w (stdin w) filenames
  end.

(** The sources of a run that were counted, with their counts. *)
Definition counted (w : World) (filenames : list string)
  : list (string * Counts) :=
  successes (run_outcomes w filenames).

(** The lines a run prints on standard output. *)
Fixpoint printed (t : list event) : list string :=
  match t with
  | [] => []
  | ev_Println line :: t' => line :: printed t'
  | _ :: t' => printed t'
  end.

(** The texts a run writes to the error stream. *)
Fixpoint complaints (t : list event) : list string :=
  match t with
  | [] => []
  | ev_Stderr text :: t' => text :: complaints t'
  | _ :: t' => complaints t'
  end.

(** How many times the run closes [file]. *)
Fixpoint closes (file : nat) (t : list event) : nat :=
  match t with
  | [] => 0
  | ev_Close f :: t' => ((if (f =? file)%nat then 1 else 0) + closes file t')%nat
  | _ :: t' => closes file t'
  end.

(** ** A sample world *)

(** Three small files, a file whose reading fails after two bytes, and no
    other file. *)
Definition sample_fs (name : string) : open_result :=
  if name =? "a" then open_ok (whole_reader (bytes_of ("a" ++ nl)))
  else if name =? "b" then open_ok (whole_reader (bytes_of ("b b" ++ nl)))
  else if name =? "c" then open_ok (whole_reader (bytes_of ("c" ++ nl)))
  else if name =? "bad" then
    open_ok [mkRead (bytes_of "xy")
                    (Some (other_error "read bad: input/output error"))]
  else open_fails (other_error ("open " ++ name ++ ": no such file or directory")).

Definition sample_world : World :=
  mkWorld "gowc" sample_fs (whole_reader (bytes_of "one two three")).

(** The bytes of ["hello world\n"], and a reader that delivers them four
    at a time. *)
Definition hello_world : list byte := bytes_of ("hello world" ++ nl).
Definition hello_reader : Reader := chunked_reader 4 hello_world.

Definition all_flags : Flags := mkFlags true true true.
Definition no_flags : Flags := mkFlags false false false.

Local Close Scope string_scope.

(** ** Further quantities of a run *)

(** The files a run opens, in the order in which it opens them. *)
Fixpoint opened_files (t : list event) : list nat :=
  match t with
  | [] => []
  | ev_Open file _ :: t' => file :: opened_files t'
  | _ :: t' => opened_files t'
  end.



(** Every count has a decimal text of at most eight characters. *)
Definition eight_columns (c : Counts) : Prop :=
  - 10 ^ 7 < Lines c < 10 ^ 8 /\ - 10 ^ 7 < Words c < 10 ^ 8
  /\ - 10 ^ 7 < Bytes c < 10 ^ 8.

(* ================================================================== *)
(** * Theorems *)
(* ================================================================== *)

(** ** Facts of 64-bit arithmetic *)

Section Int64Facts.

Lemma Int64_wrap_in_range z : Int64.in_range (Int64.wrap z).
Proof.
  unfold Int64.in_range, Int64.wrap, Int64.min_int, Int64.max_int.
  pose proof (Z.mod_pos_bound (z + 2 ^ 63) (2 ^ 64) ltac:(lia)). lia.
Qed.

Lemma Int64_wrap_small z : Int64.in_range z -> Int64.wrap z = z.
Proof.
  unfold Int64.in_range, Int64.wrap, Int64.min_int, Int64.max_int. intros H.
  rewrite Z.mod_small; lia.
Qed.

Lemma Int64_wrap_add_l a b : Int64.wrap (Int64.wrap a + b) = Int64.wrap (a + b).
Proof.
  unfold Int64.wrap.
  replace ((a + 2 ^ 63) mod 2 ^ 64 - 2 ^ 63 + b + 2 ^ 63)
    with ((a + 2 ^ 63) mod 2 ^ 64 + b) by lia.
  replace (a + b + 2 ^ 63) with ((a + 2 ^ 63) + b) by lia.
  rewrite Zplus_mod_idemp_l. reflexivity.
Qed.

Lemma Int64_wrap_add_r a b : Int64.wrap (a + Int64.wrap b) = Int64.wrap (a + b).
Proof. rewrite (Z.add_comm a), Int64_wrap_add_l, (Z.add_comm b). reflexivity. Qed.

Lemma Int64_wrap_0 : Int64.wrap 0 = 0.
Proof. reflexivity. Qed.

End Int64Facts.

(** ** The scanning loop over the delivered bytes *)

Section Scan.

Lemma count_char_add_bytes n st b :
  count_char (add_bytes n st) b = add_bytes n (count_char st b).
Proof.
  unfold count_char, add_bytes; simpl.
  destruct (Byte.eqb b newline), (unicode.IsSpace (rune b)), (inWord st);
    reflexivity.
Qed.

Lemma fold_add_bytes S : forall n st,
  fold_left count_char S (add_bytes n st)
  = add_bytes n (fold_left count_char S st).
Proof.
  induction S as [|b S IH]; intros n st; simpl; [reflexivity|].
  rewrite count_char_add_bytes. apply IH.
Qed.

Lemma add_bytes_twice n m st :
  add_bytes n (add_bytes m st) = add_bytes (m + n) st.
Proof.
  unfold add_bytes, Int64.add; simpl.
  rewrite Int64_wrap_add_l, Z.add_assoc. reflexivity.
Qed.

Lemma count_chunk_fold st buf :
  count_chunk st buf
  = add_bytes (Z.of_nat (List.length buf)) (fold_left count_char buf st).
Proof. unfold count_chunk. apply (fold_add_bytes buf _ st). Qed.

(** Two chunks in a row leave the state that the two in one piece leave:
    nothing but the scanning state passes from a chunk to the next. *)
Lemma count_chunk_app st A B :
  count_chunk (count_chunk st A) B = count_chunk st (A ++ B).
Proof.
  rewrite !count_chunk_fold, fold_add_bytes, add_bytes_twice.
  rewrite fold_left_app, length_app, Nat2Z.inj_add. reflexivity.
Qed.

(** The counters [count_loop] returns are those of one scan of all the
    delivered bytes: the chunk boundaries do not show. *)
Lemma count_loop_counts r : forall st,
  fst (fst (count_loop r st))
  = counts (add_bytes (Z.of_nat (List.length (delivered r)))
                      (fold_left count_char (delivered r) st)).
Proof.
  induction r as [|rr r IH]; intros st; cbn [count_loop delivered].
  - rewrite count_chunk_fold. reflexivity.
  - destruct (err rr) as [[|msg]|].
    + cbn [fst]. rewrite count_chunk_fold. reflexivity.
    + cbn [fst]. rewrite count_chunk_fold. reflexivity.
    + rewrite IH, count_chunk_fold, fold_add_bytes, add_bytes_twice.
      rewrite fold_left_app, length_app, Nat2Z.inj_add. reflexivity.
Qed.

Lemma count_loop_err r : forall st,
  snd (fst (count_loop r st)) = option_map wrap_read_error (failure r).
Proof.
  induction r as [|rr r IH]; intros st; simpl; [reflexivity|].
  destruct (err rr) as [[|msg]|]; simpl; auto.
Qed.

Lemma scan_Bytes S : forall st,
  Bytes (counts (fold_left count_char S st)) = Bytes (counts st).
Proof.
  induction S as [|b S IH]; intros st; simpl; [reflexivity|].
  rewrite IH. unfold count_char.
  destruct (Byte.eqb b newline), (unicode.IsSpace (rune b)), (inWord st);
    reflexivity.
Qed.

Lemma newlines_cons b S :
  newlines (b :: S) = (if Byte.eqb b newline then 1 else 0) + newlines S.
Proof.
  unfold newlines; cbn [filter].
  destruct (Byte.eqb b newline); cbn [List.length]; lia.
Qed.

Lemma scan_Lines S : forall st,
  Int64.wrap (Lines (counts (fold_left count_char S st)))
  = Int64.wrap (Lines (counts st) + newlines S).
Proof.
  induction S as [|b S IH]; intros st.
  - simpl. unfold newlines; simpl. rewrite Z.add_0_r. reflexivity.
  - simpl fold_left. rewrite IH, newlines_cons. unfold count_char.
    destruct (Byte.eqb b newline), (unicode.IsSpace (rune b)), (inWord st);
      cbn [counts Lines negb]; unfold Int64.add;
      rewrite ?Int64_wrap_add_l; f_equal; lia.
Qed.

Lemma scan_Words S : forall st,
  Int64.wrap (Words (counts (fold_left count_char S st)))
  = Int64.wrap (Words (counts st) + Z.of_nat (word_starts (inWord st) S)).
Proof.
  induction S as [|b S IH]; intros st.
  - simpl. rewrite Z.add_0_r. reflexivity.
  - simpl fold_left. rewrite IH. simpl word_starts. unfold is_space, count_char.
    destruct (Byte.eqb b newline), (unicode.IsSpace (rune b)), (inWord st);
      cbn [counts Words inWord negb]; unfold Int64.add;
      rewrite ?Int64_wrap_add_l; f_equal; lia.
Qed.

Lemma count_char_in_range st b :
  Counts_in_range (counts st) -> Counts_in_range (counts (count_char st b)).
Proof.
  unfold Counts_in_range, count_char. intros (Hl & Hw & Hb).
  destruct (Byte.eqb b newline), (unicode.IsSpace (rune b)), (inWord st);
    cbn [counts Lines Words Bytes negb]; unfold Int64.add;
    (split; [|split]); try assumption; apply Int64_wrap_in_range.
Qed.

Lemma scan_in_range S : forall st,
  Counts_in_range (counts st) ->
  Counts_in_range (counts (fold_left count_char S st)).
Proof.
  induction S as [|b S IH]; intros st H; simpl; auto using count_char_in_range.
Qed.

Lemma zeroCounts_in_range : Counts_in_range zeroCounts.
Proof.
  unfold Counts_in_range, Int64.in_range, Int64.min_int, Int64.max_int.
  simpl. lia.
Qed.

End Scan.

(** ** What [count] returns, in terms of the delivered bytes *)

Section CountFacts.

Lemma count_counts_unfold r :
  count_counts r
  = counts (add_bytes (Z.of_nat (List.length (delivered r)))
              (fold_left count_char (delivered r) (mkScan zeroCounts false))).
Proof. unfold count_counts, count_result, count. apply count_loop_counts. Qed.

Lemma count_err_failure r :
  count_err r = option_map wrap_read_error (failure r).
Proof. unfold count_err, count_result, count. apply count_loop_err. Qed.

Lemma count_counts_Bytes r :
  Bytes (count_counts r) = Int64.wrap (Z.of_nat (List.length (delivered r))).
Proof.
  rewrite count_counts_unfold. unfold add_bytes. cbn [counts Bytes].
  rewrite scan_Bytes. reflexivity.
Qed.

Lemma count_counts_Lines r :
  Lines (count_counts r) = Int64.wrap (newlines (delivered r)).
Proof.
  rewrite count_counts_unfold. unfold add_bytes. cbn [counts Lines].
  pose proof (scan_in_range (delivered r) (mkScan zeroCounts false)
                zeroCounts_in_range) as (Hl & _).
  rewrite <- (Int64_wrap_small _ Hl), scan_Lines. reflexivity.
Qed.

Lemma count_counts_Words r :
  Words (count_counts r)
  = Int64.wrap (Z.of_nat (word_starts false (delivered r))).
Proof.
  rewrite count_counts_unfold. unfold add_bytes. cbn [counts Words].
  pose proof (scan_in_range (delivered r) (mkScan zeroCounts false)
                zeroCounts_in_range) as (_ & Hw & _).
  rewrite <- (Int64_wrap_small _ Hw), scan_Words. reflexivity.
Qed.

(** The result depends on the reader only through the bytes it delivers
    and the failure that ends it. *)
Lemma count_result_ext r r' :
  delivered r = delivered r' -> failure r = failure r' ->
  count_result r = count_result r'.
Proof.
  intros HD HF.
  rewrite (surjective_pairing (count_result r)).
  rewrite (surjective_pairing (count_result r')).
  fold (count_counts r) (count_counts r') (count_err r) (count_err r').
  rewrite !count_counts_unfold, !count_err_failure, HD, HF. reflexivity.
Qed.

Lemma delivered_whole S : delivered (whole_reader S) = S.
Proof. simpl. apply app_nil_r. Qed.

Lemma count_counts_delivered r : count_counts r = count_bytes (delivered r).
Proof.
  unfold count_bytes. rewrite !count_counts_unfold, delivered_whole.
  reflexivity.
Qed.

Lemma newlines_bounds S : 0 <= newlines S <= Z.of_nat (List.length S).
Proof.
  unfold newlines. split; [lia|].
  apply Nat2Z.inj_le, filter_length_le.
Qed.

Lemma word_starts_le S : forall prev,
  (word_starts prev S <= List.length S)%nat.
Proof.
  induction S as [|b S IH]; intros prev; simpl; [lia|].
  destruct (is_space b).
  - specialize (IH false). lia.
  - specialize (IH true). destruct prev; lia.
Qed.

Lemma fits_wrap S z :
  fits_int64 S -> 0 <= z <= Z.of_nat (List.length S) -> Int64.wrap z = z.
Proof.
  unfold fits_int64. intros HS Hz. apply Int64_wrap_small.
  unfold Int64.in_range, Int64.min_int, Int64.max_int in *. lia.
Qed.

Lemma newlines_app A B : newlines (A ++ B) = newlines A + newlines B.
Proof. unfold newlines. rewrite filter_app, length_app. lia. Qed.

Lemma word_starts_app A : forall prev B,
  word_starts prev (A ++ B)
  = (word_starts prev A + word_starts (ends_in_word prev A) B)%nat.
Proof.
  induction A as [|a A IH]; intros prev B; simpl; [reflexivity|].
  destruct (is_space a); simpl; rewrite IH; lia.
Qed.

Lemma ends_in_word_app A : forall prev B,
  ends_in_word prev (A ++ B) = ends_in_word (ends_in_word prev A) B.
Proof. induction A as [|a A IH]; intros prev B; simpl; auto. Qed.

Lemma ends_in_word_last A b prev :
  last_byte A = Some b -> ends_in_word prev A = negb (is_space b).
Proof.
  unfold last_byte. destruct A as [|a A] using rev_ind; [discriminate|].
  rewrite rev_app_distr. simpl. intros [= ->].
  rewrite ends_in_word_app. reflexivity.
Qed.

Lemma last_byte_nil_iff A : last_byte A = None <-> A = [].
Proof.
  unfold last_byte. destruct A as [|a A] using rev_ind; [tauto|].
  rewrite rev_app_distr. simpl. split; [discriminate|].
  intros H. destruct A; discriminate.
Qed.

(** A word of [B] that begins at its first byte is not counted anew
    when the scan reaches [B] inside a word. *)
Lemma word_starts_true B :
  word_starts false B
  = ((match first_byte B with
      | Some b => if is_space b then 0 else 1
      | None => 0
      end) + word_starts true B)%nat.
Proof. destruct B as [|b B]; simpl; [reflexivity|]. destruct (is_space b); lia. Qed.

End CountFacts.

(** ** Readers that cut a byte sequence into chunks *)

Section Chunks.

Lemma concat_chunks_fuel k : (1 <= k)%nat -> forall fuel S,
  (List.length S <= fuel)%nat -> List.concat (chunks_fuel fuel k S) = S.
Proof.
  intros Hk. induction fuel as [|fuel IH]; intros S Hlen.
  - destruct S; [reflexivity | simpl in Hlen; lia].
  - destruct S as [|b S]; [reflexivity|].
    cbn [chunks_fuel List.concat]. rewrite IH.
    + apply firstn_skipn.
    + rewrite length_skipn. cbn [List.length] in *. lia.
Qed.

Lemma concat_chunks k S : (1 <= k)%nat -> List.concat (chunks k S) = S.
Proof. intros Hk. apply concat_chunks_fuel; auto. Qed.

(** Every chunk holds at least one and at most [k] bytes. *)
Lemma chunks_fuel_sizes k : (1 <= k)%nat -> forall fuel S,
  Forall (fun c => (1 <= List.length c <= k)%nat) (chunks_fuel fuel k S).
Proof.
  intros Hk. induction fuel as [|fuel IH]; intros S; [constructor|].
  destruct S as [|b S]; [constructor|].
  cbn [chunks_fuel]. constructor; [|apply IH].
  rewrite length_firstn. simpl List.length. lia.
Qed.

(** With chunks no longer than the buffer the reader keeps the contract
    of [Read]. *)
Lemma chunked_reader_valid k S :
  (1 <= k)%nat -> Z.of_nat k <= bufferSize ->
  Forall valid_read (chunked_reader k S).
Proof.
  intros Hk Hbuf. unfold chunked_reader, chunks. apply Forall_map.
  eapply Forall_impl; [|apply (chunks_fuel_sizes k Hk)].
  intros c Hc. unfold valid_read. cbn [data]. cbv beta in Hc. lia.
Qed.

Lemma delivered_unfailing cs :
  delivered (map (fun c => mkRead c None) cs) = List.concat cs.
Proof. induction cs as [|c cs IH]; simpl; congruence. Qed.

Lemma failure_unfailing cs :
  failure (map (fun c => mkRead c None) cs) = None.
Proof. induction cs as [|c cs IH]; simpl; auto. Qed.

Lemma delivered_chunked k S :
  (1 <= k)%nat -> delivered (chunked_reader k S) = S.
Proof.
  intros Hk. unfold chunked_reader.
  rewrite delivered_unfailing. apply concat_chunks, Hk.
Qed.

Lemma count_result_chunked k S :
  (1 <= k)%nat -> count_result (chunked_reader k S) = count_result (whole_reader S).
Proof.
  intros Hk. apply count_result_ext.
  - rewrite delivered_chunked, delivered_whole; auto.
  - unfold chunked_reader. rewrite failure_unfailing. reflexivity.
Qed.

End Chunks.

(** ** The counter: lines, bytes, bounds, chunking, concatenation *)

(** C3.  For every reader whose stream fits the 64-bit counters, the line
    count [count] returns is the number of bytes equal to ['\n'] among
    the bytes delivered; in the scanning step a newline byte adds one to
    the line count and any other byte, a carriage return included, leaves
    it as it was. *)
Theorem count_lines_are_newlines (r : Reader) :
  fits_int64 (delivered r) ->
  Lines (count_counts r) = newlines (delivered r)
  /\ (forall st, Lines (counts (count_char st newline))
                 = Int64.add (Lines (counts st)) 1)
  /\ (forall st b, b <> newline ->
        Lines (counts (count_char st b)) = Lines (counts st))
  /\ (forall st, Lines (counts (count_char st x0d)) = Lines (counts st)).
Proof.
  intros Hfit. split; [|split; [|split]].
  - rewrite count_counts_Lines.
    apply (fits_wrap (delivered r)); auto using newlines_bounds.
  - intros st. reflexivity.
  - intros st b Hb. unfold count_char.
    destruct (Byte.eqb b newline) eqn:E.
    + apply Byte.byte_dec_bl in E. contradiction.
    + destruct (unicode.IsSpace (rune b)), (inWord st); reflexivity.
  - intros st. unfold count_char. simpl. reflexivity.
Qed.

(** C4.  For every reader whose stream fits the 64-bit counters, the byte
    count [count] returns is the length of the stream; on the empty
    stream [count] returns [Counts{0,0,0}] and no error. *)
Theorem count_bytes_is_length (r : Reader) :
  fits_int64 (delivered r) ->
  Bytes (count_counts r) = Z.of_nat (List.length (delivered r))
  /\ count_result [] = (mkCounts 0 0 0, None)
  /\ count_result [at_EOF] = (mkCounts 0 0 0, None)
  /\ (delivered r = [] -> count_counts r = mkCounts 0 0 0).
Proof.
  intros Hfit. split; [|split; [|split]].
  - rewrite count_counts_Bytes.
    apply (fits_wrap (delivered r)); auto. lia.
  - reflexivity.
  - reflexivity.
  - intros HD. rewrite count_counts_delivered, HD. reflexivity.
Qed.

(** C10.  For every reader whose stream fits the 64-bit counters, the
    counts satisfy [0 <= Lines <= Bytes] and [0 <= Words <= Bytes]. *)
Theorem count_bounds (r : Reader) :
  fits_int64 (delivered r) ->
  0 <= Lines (count_counts r) <= Bytes (count_counts r)
  /\ 0 <= Words (count_counts r) <= Bytes (count_counts r).
Proof.
  intros Hfit.
  rewrite count_counts_Lines, count_counts_Words, count_counts_Bytes.
  pose proof (newlines_bounds (delivered r)) as Hn.
  pose proof (word_starts_le (delivered r) false) as Hw.
  rewrite (fits_wrap (delivered r) (newlines (delivered r))) by auto.
  rewrite (fits_wrap (delivered r) (Z.of_nat (word_starts _ _))) by (auto; lia).
  rewrite (fits_wrap (delivered r) (Z.of_nat (List.length _))) by (auto; lia).
  lia.
Qed.

(** C2.  For every byte sequence [S] and all chunk sizes [k], [k'] of at
    least one byte, [count] returns the same result on [S] delivered in
    chunks of [k] bytes, in chunks of [k'] bytes, and in one piece; in
    particular chunks of one byte give what one chunk of [len(S)] bytes
    gives.  The scanning state, that is the counters and [inWord], is all
    that passes from one chunk to the next: two chunks in a row leave the
    state that their concatenation leaves. *)
Theorem chunk_size_invariance (S : list byte) (k k' : nat) :
  (1 <= k)%nat -> (1 <= k')%nat ->
  count_result (chunked_reader k S) = count_result (chunked_reader k' S)
  /\ count_result (chunked_reader k S) = count_result (whole_reader S)
  /\ count_result (chunked_reader 1 S)
     = count_result (chunked_reader (List.length S) S)
  /\ delivered (chunked_reader k S) = S
  /\ (forall st A B,
        count_chunk (count_chunk st A) B = count_chunk st (A ++ B)).
Proof.
  intros Hk Hk'. split; [|split; [|split; [|split]]].
  - rewrite !count_result_chunked; auto.
  - apply count_result_chunked; auto.
  - destruct S as [|b S]; [reflexivity|].
    rewrite !count_result_chunked; auto. simpl; lia.
  - apply delivered_chunked, Hk.
  - apply count_chunk_app.
Qed.

(** C8.  For all byte sequences [A] and [B] whose concatenation fits the
    64-bit counters, counting [A ++ B] gives [lines(A) + lines(B)] and
    [bytes(A) + bytes(B)]; the word count is the sum when a byte at the
    boundary is whitespace or [A] or [B] is empty, and one less than the
    sum otherwise, as for ["foo"] and ["bar"], which count one word. *)
Theorem count_concat (A B : list byte) :
  fits_int64 (A ++ B) ->
  Lines (count_bytes (A ++ B)) = Lines (count_bytes A) + Lines (count_bytes B)
  /\ Bytes (count_bytes (A ++ B)) = Bytes (count_bytes A) + Bytes (count_bytes B)
  /\ (boundary_is_space A B \/ A = [] \/ B = [] ->
      Words (count_bytes (A ++ B)) = Words (count_bytes A) + Words (count_bytes B))
  /\ (~ (boundary_is_space A B \/ A = [] \/ B = []) ->
      Words (count_bytes (A ++ B))
      = Words (count_bytes A) + Words (count_bytes B) - 1)
  /\ Words (count_bytes (bytes_of "foo" ++ bytes_of "bar")) = 1
  /\ Words (count_bytes (bytes_of "foo")) + Words (count_bytes (bytes_of "bar")) = 2.
Proof.
  intros Hfit.
  assert (HA : fits_int64 A)
    by (unfold fits_int64 in *; rewrite length_app in Hfit; lia).
  assert (HB : fits_int64 B)
    by (unfold fits_int64 in *; rewrite length_app in Hfit; lia).
  unfold count_bytes.
  rewrite !count_counts_Lines, !count_counts_Bytes, !count_counts_Words.
  rewrite !delivered_whole.
  pose proof (newlines_bounds A). pose proof (newlines_bounds B).
  pose proof (newlines_bounds (A ++ B)).
  pose proof (word_starts_le A false). pose proof (word_starts_le B false).
  pose proof (word_starts_le (A ++ B) false).
  rewrite (fits_wrap (A ++ B) (newlines _)) by auto.
  rewrite (fits_wrap A (newlines _)) by auto.
  rewrite (fits_wrap B (newlines _)) by auto.
  rewrite (fits_wrap (A ++ B) (Z.of_nat (List.length _))) by (auto; lia).
  rewrite (fits_wrap A (Z.of_nat (List.length _))) by (auto; lia).
  rewrite (fits_wrap B (Z.of_nat (List.length _))) by (auto; lia).
  rewrite (fits_wrap (A ++ B) (Z.of_nat (word_starts _ _))) by (auto; lia).
  rewrite (fits_wrap A (Z.of_nat (word_starts _ _))) by (auto; lia).
  rewrite (fits_wrap B (Z.of_nat (word_starts _ _))) by (auto; lia).
  rewrite newlines_app, length_app, word_starts_app.
  split; [reflexivity|]. split; [lia|].
  rewrite (word_starts_true B).
  split; [|split; [|split; reflexivity]].
  - intros [[(b & Hb & Hsp) | (b & Hb & Hsp)] | [-> | ->]].
    + rewrite (ends_in_word_last A b false Hb), Hsp. simpl negb.
      rewrite <- word_starts_true. lia.
    + rewrite Hb, Hsp. destruct B as [|b' B]; [discriminate|].
      injection Hb as ->. simpl. unfold first_byte in *. rewrite Hsp. lia.
    + simpl. rewrite <- word_starts_true. lia.
    + simpl. lia.
  - intros Hnot.
    destruct (last_byte A) as [a|] eqn:Ha.
    2:{ apply last_byte_nil_iff in Ha. tauto. }
    destruct (first_byte B) as [b|] eqn:Hb.
    2:{ destruct B; [tauto | discriminate]. }
    destruct (is_space a) eqn:Hsa.
    { exfalso. apply Hnot. left. left. eauto. }
    destruct (is_space b) eqn:Hsb.
    { exfalso. apply Hnot. left. right. eauto. }
    rewrite (ends_in_word_last A a false Ha), Hsa. simpl negb. lia.
Qed.

(** ** Words and maximal runs of non-whitespace bytes *)

Section Runs.

Lemma nonspace_at_true S k :
  nonspace_at S k = true
  <-> exists b, nth_error S k = Some b /\ is_space b = false.
Proof.
  unfold nonspace_at. destruct (nth_error S k) as [b|].
  - rewrite negb_true_iff. split; [eauto|]. intros (b' & [= <-] & H); exact H.
  - split; [discriminate|]. intros (b' & H & _); discriminate.
Qed.

Lemma space_at_true S k :
  space_at S k = true
  <-> exists b, nth_error S k = Some b /\ is_space b = true.
Proof.
  unfold space_at. destruct (nth_error S k) as [b|].
  - split; [eauto|]. intros (b' & [= <-] & H); exact H.
  - split; [discriminate|]. intros (b' & H & _); discriminate.
Qed.

Lemma space_nonspace S k :
  space_at S k = true -> nonspace_at S k = true -> False.
Proof.
  unfold space_at, nonspace_at. destruct (nth_error S k); [|discriminate].
  intros ->. discriminate.
Qed.

Lemma space_or_nonspace S k :
  (k < List.length S)%nat -> space_at S k = true \/ nonspace_at S k = true.
Proof.
  intros Hk. unfold space_at, nonspace_at.
  destruct (nth_error S k) as [b|] eqn:E.
  - destruct (is_space b); auto.
  - apply nth_error_None in E. lia.
Qed.

(** The boolean test decides the definition. *)
Lemma is_maximal_run_spec S i j :
  is_maximal_run S (i, j) = true <-> maximal_run S i j.
Proof.
  unfold is_maximal_run, maximal_run.
  rewrite !andb_true_iff, !orb_true_iff, forallb_forall.
  rewrite Nat.ltb_lt, Nat.leb_le, !Nat.eqb_eq, !space_at_true.
  split.
  - intros ((((Hij & Hj) & Hall) & Hl) & Hr). repeat split; auto.
    intros k Hk. apply nonspace_at_true, Hall, in_seq. lia.
  - intros ((Hij & Hj) & Hall & Hl & Hr). repeat split; auto.
    intros k Hk%in_seq. apply nonspace_at_true, Hall. lia.
Qed.

Lemma in_maximal_runs S i j :
  In (i, j) (maximal_runs S) <-> maximal_run S i j.
Proof.
  unfold maximal_runs. rewrite filter_In, is_maximal_run_spec.
  split; [tauto|]. intros H. split; [|exact H].
  destruct H as ((Hij & Hj) & _).
  apply in_prod; apply in_seq; lia.
Qed.

Lemma NoDup_list_prod (A B : Type) (l : list A) (l' : list B) :
  NoDup l -> NoDup l' -> NoDup (list_prod l l').
Proof.
  intros Hl Hl'. induction Hl as [|a l Ha Hl IH]; simpl; [constructor|].
  apply NoDup_app.
  - apply Finite.Injective_map_NoDup; auto. intros x y [= ->]; reflexivity.
  - exact IH.
  - intros [x y] Hin1 Hin2. apply in_map_iff in Hin1 as (y' & [= <- <-] & _).
    apply in_prod_iff in Hin2 as [Hin2 _]. contradiction.
Qed.

Lemma NoDup_maximal_runs S : NoDup (maximal_runs S).
Proof.
  unfold maximal_runs. apply NoDup_filter, NoDup_list_prod; apply seq_NoDup.
Qed.

(** A run is known by where it begins. *)
Lemma run_end_unique S i j j' :
  maximal_run S i j -> maximal_run S i j' -> j = j'.
Proof.
  assert (Hlt : forall a b, maximal_run S i a -> maximal_run S i b ->
                            (a < b)%nat -> False).
  { intros a b ((Hia & Ha) & _ & _ & Hr) ((Hib & Hb) & Hall & _ & _) Hab.
    destruct Hr as [-> | Hsp]; [lia|].
    apply space_at_true in Hsp.
    apply (space_nonspace S a Hsp), nonspace_at_true, Hall. lia. }
  intros H H'.
  destruct (Nat.lt_trichotomy j j') as [Hc | [Hc | Hc]]; auto;
    exfalso; eauto.
Qed.

Lemma run_begins_at_start S i j :
  maximal_run S i j -> is_start false S i = true.
Proof.
  intros ((Hij & Hj) & Hall & Hl & _). unfold is_start.
  apply andb_true_iff. split.
  - apply nonspace_at_true, Hall. lia.
  - destruct Hl as [-> | Hsp]; [reflexivity|].
    destruct (i =? 0)%nat; [reflexivity|]. apply space_at_true, Hsp.
Qed.

(** A run of non-whitespace bytes can be extended to the right until a
    whitespace byte or the end of the sequence. *)
Lemma run_extends S i : forall d j,
  d = (List.length S - j)%nat -> (j <= List.length S)%nat ->
  (forall k, (i <= k < j)%nat -> nonspace_at S k = true) ->
  exists j', (j <= j' <= List.length S)%nat
    /\ (forall k, (i <= k < j')%nat -> nonspace_at S k = true)
    /\ (j' = List.length S \/ space_at S j' = true).
Proof.
  induction d as [|d IH]; intros j Hd Hj Hall.
  - exists j. repeat split; auto. left. lia.
  - destruct (space_or_nonspace S j) as [Hsp | Hns]; [lia| |].
    + exists j. repeat split; auto.
    + destruct (IH (Datatypes.S j)) as (j' & Hj' & Hall' & Hr); try lia.
      * intros k Hk. destruct (Nat.eq_dec k j) as [-> | Hne]; auto.
        apply Hall. lia.
      * exists j'. repeat split; auto; lia.
Qed.

Lemma start_begins_run S i :
  is_start false S i = true -> exists j, maximal_run S i j.
Proof.
  unfold is_start. intros [Hns Hl]%andb_true_iff.
  assert (Hi : (i < List.length S)%nat).
  { apply nth_error_Some. apply nonspace_at_true in Hns as (b & -> & _).
    discriminate. }
  destruct (run_extends S i (List.length S - Datatypes.S i) (Datatypes.S i))
    as (j & Hj & Hall & Hr); try lia.
  { intros k Hk. replace k with i by lia. exact Hns. }
  exists j. repeat split; try lia.
  - intros k Hk. apply nonspace_at_true, Hall, Hk.
  - destruct (i =? 0)%nat eqn:E.
    + left. apply Nat.eqb_eq, E.
    + right. apply space_at_true, Hl.
  - destruct Hr as [-> | Hsp]; [left; reflexivity|].
    right. apply space_at_true, Hsp.
Qed.

(** The runs and the places where a word begins correspond one to one. *)
Lemma runs_are_starts S :
  Permutation (map fst (maximal_runs S))
              (filter (is_start false S) (seq 0 (List.length S))).
Proof.
  apply NoDup_Permutation.
  - apply Finite.Injective_map_NoDup_in; [|apply NoDup_maximal_runs].
    intros [i j] [i' j'] Hin Hin' Heq. simpl in Heq. subst i'.
    apply in_maximal_runs in Hin, Hin'.
    f_equal. eapply run_end_unique; eauto.
  - apply NoDup_filter, seq_NoDup.
  - intros i. rewrite in_map_iff, filter_In, in_seq. split.
    + intros ([i' j] & <- & Hin). apply in_maximal_runs in Hin. simpl.
      split; [|eapply run_begins_at_start; eauto].
      destruct Hin as ((? & ?) & _). lia.
    + intros (_ & Hst). destruct (start_begins_run S i Hst) as (j & Hrun).
      exists (i, j). split; [reflexivity|]. apply in_maximal_runs, Hrun.
Qed.

Lemma is_start_tail prev b S m :
  is_start prev (b :: S) (Datatypes.S m) = is_start (negb (is_space b)) S m.
Proof.
  unfold is_start. cbn [Nat.eqb]. rewrite Nat.sub_succ, Nat.sub_0_r.
  unfold nonspace_at at 1. cbn [nth_error]. fold (nonspace_at S m).
  f_equal. destruct m as [|m]; cbn [Nat.eqb].
  - unfold space_at. simpl. rewrite negb_involutive. reflexivity.
  - unfold space_at at 1. cbn [nth_error]. rewrite Nat.sub_succ, Nat.sub_0_r.
    reflexivity.
Qed.

Lemma starts_count S : forall prev off,
  List.length (filter (fun k => is_start prev S (k - off))
                      (seq off (List.length S)))
  = word_starts prev S.
Proof.
  induction S as [|b S IH]; intros prev off; [reflexivity|].
  cbn [List.length seq filter word_starts]. rewrite Nat.sub_diag.
  rewrite (filter_ext_in _ (fun k => is_start (negb (is_space b)) S
                                       (k - Datatypes.S off))).
  2:{ intros k Hk%in_seq.
      replace (k - off)%nat with (Datatypes.S (k - Datatypes.S off)) by lia.
      apply is_start_tail. }
  specialize (IH (negb (is_space b)) (Datatypes.S off)).
  unfold is_start at 1, nonspace_at, space_at. cbn [nth_error Nat.eqb].
  destruct (is_space b), prev; cbn [negb andb List.length] in *; lia.
Qed.

Lemma word_starts_runs S :
  word_starts false S = List.length (maximal_runs S).
Proof.
  rewrite <- (length_map fst), (Permutation_length (runs_are_starts S)).
  rewrite <- (starts_count S false 0).
  f_equal. apply filter_ext. intros k. rewrite Nat.sub_0_r. reflexivity.
Qed.

End Runs.

(** C1.  For every reader whose stream fits the 64-bit counters, the word
    count [count] returns is the number of maximal runs of consecutive
    non-whitespace bytes among the bytes delivered, a byte being
    whitespace when [unicode.IsSpace] holds of that byte taken alone as a
    rune; the list [maximal_runs] holds each such run once.  The bytes
    61 C3 A0 62, which are ["a"], the two bytes of U+00E0 and ["b"] in
    UTF-8, count as two words, since the byte A0 alone is a space. *)
Theorem count_words_are_maximal_runs (r : Reader) :
  fits_int64 (delivered r) ->
  Words (count_counts r) = Z.of_nat (List.length (maximal_runs (delivered r)))
  /\ NoDup (maximal_runs (delivered r))
  /\ (forall i j, In (i, j) (maximal_runs (delivered r))
                  <-> maximal_run (delivered r) i j)
  /\ (forall b, is_space b = unicode.IsSpace (Z.of_N (Byte.to_N b)))
  /\ Words (count_bytes [x61; xc3; xa0; x62]) = 2.
Proof.
  intros Hfit. split; [|split; [|split; [|split]]]; [| | | |reflexivity].
  - rewrite count_counts_Words, word_starts_runs.
    apply (fits_wrap (delivered r)); auto.
    rewrite <- word_starts_runs.
    pose proof (word_starts_le (delivered r) false). lia.
  - apply NoDup_maximal_runs.
  - intros i j. apply in_maximal_runs.
  - intros b. reflexivity.
Qed.

(** ** Output formatting *)

Section Format.

Local Open Scope string_scope.

Lemma string_length_app s : forall t,
  String.length (s ++ t) = (String.length s + String.length t)%nat.
Proof. induction s as [|c s IH]; intros t; simpl; auto. Qed.

Lemma string_app_nil_r s : s ++ "" = s.
Proof. induction s as [|c s IH]; simpl; congruence. Qed.

Lemma string_app_assoc s : forall t u, (s ++ t) ++ u = s ++ (t ++ u).
Proof. induction s as [|c s IH]; intros t u; simpl; congruence. Qed.

Lemma spaces_length n : String.length (spaces n) = n.
Proof. induction n as [|n IH]; simpl; congruence. Qed.

Lemma pad_left_length w s :
  String.length (pad_left w s) = Nat.max w (String.length s).
Proof. unfold pad_left. rewrite string_length_app, spaces_length. lia. Qed.

Lemma decimal_value_app s : forall acc t,
  decimal_value acc (s ++ t) = decimal_value (decimal_value acc s) t.
Proof. induction s as [|c s IH]; intros acc t; simpl; auto. Qed.

Lemma digit_value d :
  (0 <= d < 10)%Z -> (Z.of_nat (nat_of_ascii (digit d)) - 48 = d)%Z.
Proof.
  intros Hd. unfold digit. rewrite nat_ascii_embedding; lia.
Qed.

(** The digits written are those of the number. *)
Lemma digits_fuel_value fuel : forall n,
  (0 <= n < 2 ^ (Z.of_nat fuel + 1))%Z ->
  decimal_value 0 (digits_fuel fuel n) = n.
Proof.
  induction fuel as [|fuel IH]; intros n Hn.
  - change (2 ^ (Z.of_nat 0 + 1))%Z with 2%Z in Hn.
    cbn [digits_fuel decimal_value]. rewrite Z.mod_small by lia.
    rewrite digit_value; lia.
  - cbn [digits_fuel]. destruct (Z.ltb_spec n 10) as [Hlt | Hge].
    + cbn [decimal_value]. rewrite digit_value; lia.
    + rewrite decimal_value_app, IH.
      * cbn [decimal_value].
        rewrite digit_value by (apply Z.mod_pos_bound; lia).
        pose proof (Z.div_mod n 10 ltac:(lia)). lia.
      * split; [apply Z.div_pos; lia|].
        apply Z.div_lt_upper_bound; [lia|].
        replace (Z.of_nat (Datatypes.S fuel) + 1)%Z
          with (Z.succ (Z.of_nat fuel + 1)) in Hn by lia.
        rewrite Z.pow_succ_r in Hn by lia. lia.
Qed.

Lemma digits_value n : (0 <= n)%Z -> decimal_value 0 (digits n) = n.
Proof.
  intros Hn. unfold digits. apply digits_fuel_value.
  split; [exact Hn|].
  destruct (Z.eq_dec n 0) as [-> | Hne]; [cbn; lia|].
  rewrite Z2Nat.id by apply Z.log2_nonneg.
  replace (Z.log2 n + 1)%Z with (Z.succ (Z.log2 n)) by lia.
  apply Z.log2_spec. lia.
Qed.

Lemma digits_fuel_length fuel : forall n k,
  (0 <= n < 10 ^ Z.of_nat k)%Z -> (1 <= k)%nat ->
  (1 <= String.length (digits_fuel fuel n) <= k)%nat.
Proof.
  induction fuel as [|fuel IH]; intros n k Hn Hk;
    [cbn [digits_fuel String.length]; lia|].
  cbn [digits_fuel]. destruct (Z.ltb_spec n 10) as [Hlt | Hge];
    [cbn [String.length]; lia|].
  rewrite string_length_app. cbn [String.length].
  destruct k as [|[|k]];
    [lia | change (10 ^ Z.of_nat 1)%Z with 10%Z in Hn; lia |].
  assert (H : (1 <= String.length (digits_fuel fuel (n / 10))
               <= Datatypes.S k)%nat).
  { apply IH; [|lia]. split; [apply Z.div_pos; lia|].
    apply Z.div_lt_upper_bound; [lia|].
    rewrite <- Z.pow_succ_r by lia. rewrite <- Nat2Z.inj_succ. lia. }
  lia.
Qed.

Lemma format_d_length n :
  (- 10 ^ 7 < n < 10 ^ 8)%Z -> (String.length (format_d n) <= 8)%nat.
Proof.
  intros Hn. unfold format_d, digits.
  destruct (Z.ltb_spec n 0) as [Hneg | Hpos].
  - cbn [append String.length].
    pose proof (digits_fuel_length (Z.to_nat (Z.log2 (- n))) (- n) 7) as H.
    change (Z.of_nat 7) with 7%Z in H. lia.
  - pose proof (digits_fuel_length (Z.to_nat (Z.log2 n)) n 8) as H.
    change (Z.of_nat 8) with 8%Z in H. lia.
Qed.

Lemma formatOutput_fields c f name :
  formatOutput c f name
  = field (ShowLines f) (Lines c) ++ field (ShowWords f) (Words c)
    ++ field (ShowBytes f) (Bytes c) ++ name_part name.
Proof.
  unfold formatOutput, field, name_part, Sprintf_width_d, width, Join.
  destruct (ShowLines f), (ShowWords f), (ShowBytes f), (name =? "");
    cbn [negb app String.concat append];
    rewrite ?string_app_nil_r, ?string_app_assoc; reflexivity.
Qed.

End Format.

(** C7, as the code has it.  For every [Counts] value, selection of flags
    and display name, the output line is the selected fields in the order
    lines, words, bytes, joined with nothing between them, followed by a
    space and the name when the name is not empty.  A field is the decimal
    text of the count with spaces before it up to a width of eight
    characters: it is eight characters long when the count lies between
    -9999999 and 99999999, and as long as the decimal text otherwise. *)
Theorem formatOutput_layout (c : Counts) (f : Flags) (name : string) :
  formatOutput c f name
  = (field (ShowLines f) (Lines c) ++ field (ShowWords f) (Words c)
     ++ field (ShowBytes f) (Bytes c) ++ name_part name)%string
  /\ (forall n, field false n = ""%string)
  /\ (forall n, field true n
                = (spaces (8 - String.length (format_d n)) ++ format_d n)%string)
  /\ (forall n, String.length (field true n)
                = Nat.max 8 (String.length (format_d n)))
  /\ (forall n, - 10 ^ 7 < n < 10 ^ 8 -> String.length (field true n) = 8%nat)
  /\ (forall n, 0 <= n -> decimal_value 0 (format_d n) = n)
  /\ name_part "" = ""%string
  /\ (name <> ""%string -> name_part name = (" " ++ name)%string).
Proof.
  split; [apply formatOutput_fields|].
  split; [reflexivity|]. split; [reflexivity|].
  split; [intros n; apply pad_left_length|].
  split.
  { intros n Hn. unfold field. rewrite pad_left_length.
    pose proof (format_d_length n Hn). lia. }
  split.
  { intros n Hn. unfold format_d.
    destruct (Z.ltb_spec n 0); [lia|]. apply digits_value, Hn. }
  split; [reflexivity|].
  intros Hne. unfold name_part.
  destruct (String.eqb_spec name ""); [contradiction | reflexivity].
Qed.

(** A count of nine digits takes a field of nine characters. *)
Lemma formatOutput_wide_count :
  formatOutput (mkCounts 1 2 100000000) all_flags ""
  = "       1       2100000000"%string
  /\ String.length (formatOutput (mkCounts 1 2 100000000) all_flags "") = 25%nat
  /\ String.length (formatOutput (mkCounts 1 2 100000000) all_flags "")
     <> fixed_width_length all_flags "".
Proof. repeat split. vm_compute. discriminate. Qed.

(** ** The driver *)

Section Driver.

Variable w : World.
Variable flags : Flags.

Lemma printed_app t t' : printed (t ++ t') = printed t ++ printed t'.
Proof.
  induction t as [|e t IH]; simpl; [reflexivity|].
  destruct e; simpl; congruence.
Qed.

Lemma complaints_app t t' :
  complaints (t ++ t') = complaints t ++ complaints t'.
Proof.
  induction t as [|e t IH]; simpl; [reflexivity|].
  destruct e; simpl; congruence.
Qed.

Lemma closes_app f t t' :
  closes f (t ++ t') = (closes f t + closes f t')%nat.
Proof.
  induction t as [|e t IH]; simpl; [reflexivity|].
  destruct e; simpl; lia.
Qed.

Lemma successes_app os os' :
  successes (os ++ os') = successes os ++ successes os'.
Proof.
  induction os as [|o os IH]; simpl; [reflexivity|].
  destruct o; simpl; congruence.
Qed.

Lemma diagnostics_app os os' :
  diagnostics w (os ++ os') = diagnostics w os ++ diagnostics w os'.
Proof.
  induction os as [|o os IH]; simpl; [reflexivity|].
  destruct o; simpl; congruence.
Qed.

(** One iteration of the loop does to the state what the outcome of its
    source says. *)
Lemma process_file_outcome st filename :
  let o := fst (source_outcome w (stdin_now st) filename) in
  let st' := process_file w flags st filename in
  stdin_now st' = snd (source_outcome w (stdin_now st) filename)
  /\ printed (trace st')
     = printed (trace st) ++ map (result_line flags) (successes [o])
  /\ complaints (trace st') = complaints (trace st) ++ diagnostics w [o]
  /\ totalCounts st'
     = fold_left add_counts (map snd (successes [o])) (totalCounts st)
  /\ filesProcessed st'
     = filesProcessed st + Z.of_nat (List.length (successes [o]))
  /\ errorsOccurred st' = errorsOccurred st || is_failure o.
Proof.
  unfold process_file, source_outcome, count_and_report, count_result.
  destruct (String.eqb filename "-").
  - destruct (count (stdin_now st)) as [[c [e|]] rest]; cbn;
      rewrite ?printed_app, ?complaints_app; cbn;
      rewrite ?app_nil_r, ?orb_true_r, ?orb_false_r, ?Z.add_0_r;
      repeat split; reflexivity.
  - destruct (fs w filename) as [content | e].
    + destruct (count content) as [[c [e|]] rest]; cbn;
        rewrite ?printed_app, ?complaints_app; cbn;
        rewrite ?printed_app, ?complaints_app; cbn;
        rewrite ?app_nil_r, ?orb_true_r, ?orb_false_r, ?Z.add_0_r;
        repeat split; reflexivity.
    + cbn. rewrite ?printed_app, ?complaints_app; cbn;
        rewrite ?app_nil_r, ?orb_true_r, ?orb_false_r, ?Z.add_0_r;
        repeat split; reflexivity.
Qed.

Lemma outcomes_cons sin filename rest :
  outcomes w sin (filename :: rest)
  = fst (source_outcome w sin filename)
    :: outcomes w (snd (source_outcome w sin filename)) rest.
Proof. simpl. destruct (source_outcome w sin filename); reflexivity. Qed.

Lemma outcomes_length filenames : forall sin,
  List.length (outcomes w sin filenames) = List.length filenames.
Proof.
  induction filenames as [|f fl IH]; intros sin; [reflexivity|].
  rewrite outcomes_cons. simpl. rewrite IH. reflexivity.
Qed.

(** The loop does to the state what the outcomes of its sources say. *)
Lemma process_files_outcomes filenames : forall st,
  let os := outcomes w (stdin_now st) filenames in
  let st' := process_files w flags filenames st in
  printed (trace st')
  = printed (trace st) ++ map (result_line flags) (successes os)
  /\ complaints (trace st') = complaints (trace st) ++ diagnostics w os
  /\ totalCounts st'
     = fold_left add_counts (map snd (successes os)) (totalCounts st)
  /\ filesProcessed st'
     = filesProcessed st + Z.of_nat (List.length (successes os))
  /\ errorsOccurred st' = errorsOccurred st || existsb is_failure os.
Proof.
  induction filenames as [|f fl IH]; intros st.
  - cbn. rewrite !app_nil_r, orb_false_r, Z.add_0_r. repeat split.
  - cbv zeta. rewrite outcomes_cons.
    pose proof (process_file_outcome st f) as (Hin & Hp & Hc & Ht & Hn & He).
    specialize (IH (process_file w flags st f)). cbv zeta in IH.
    rewrite Hin in IH. destruct IH as (Hp' & Hc' & Ht' & Hn' & He').
    unfold process_files in *. cbn [fold_left].
    set (o := fst (source_outcome w (stdin_now st) f)) in *.
    set (os := outcomes w _ fl) in *.
    change (o :: os) with ([o] ++ os).
    rewrite successes_app, diagnostics_app, map_app, map_app, fold_left_app.
    rewrite length_app, Nat2Z.inj_add.
    rewrite Hp', Hc', Ht', Hn', He', Hp, Hc, Ht, Hn, He.
    rewrite <- !app_assoc. cbn [existsb app]. rewrite orb_assoc.
    repeat split; lia.
Qed.

Lemma fold_add_counts_in_range cs : forall t,
  Counts_in_range t -> Counts_in_range (fold_left add_counts cs t).
Proof.
  induction cs as [|c cs IH]; intros t Ht; simpl; [exact Ht|].
  apply IH. unfold Counts_in_range, add_counts, Int64.add; simpl.
  auto using Int64_wrap_in_range.
Qed.

Lemma fold_add_counts_wrap cs : forall t,
  Int64.wrap (Lines (fold_left add_counts cs t))
  = Int64.wrap (Lines t + fold_right Z.add 0 (map Lines cs))
  /\ Int64.wrap (Words (fold_left add_counts cs t))
     = Int64.wrap (Words t + fold_right Z.add 0 (map Words cs))
  /\ Int64.wrap (Bytes (fold_left add_counts cs t))
     = Int64.wrap (Bytes t + fold_right Z.add 0 (map Bytes cs)).
Proof.
  induction cs as [|c cs IH]; intros t; simpl.
  - rewrite !Z.add_0_r. auto.
  - destruct (IH (add_counts t c)) as (Hl & Hw & Hb).
    rewrite Hl, Hw, Hb. unfold add_counts, Int64.add; simpl.
    rewrite !Int64_wrap_add_l, !Z.add_assoc. auto.
Qed.

(** When the sums fit the 64-bit counters, the running total is the
    field-wise sum. *)
Lemma fold_add_counts_sum cs :
  Counts_in_range (sum_counts cs) ->
  fold_left add_counts cs zeroCounts = sum_counts cs.
Proof.
  intros (Hl & Hw & Hb). simpl in Hl, Hw, Hb.
  pose proof (fold_add_counts_in_range cs zeroCounts zeroCounts_in_range)
    as (Hl' & Hw' & Hb').
  destruct (fold_add_counts_wrap cs zeroCounts) as (El & Ew & Eb).
  simpl in El, Ew, Eb.
  rewrite Int64_wrap_small in El, Ew, Eb by assumption.
  rewrite Int64_wrap_small in El, Ew, Eb by assumption.
  unfold sum_counts. rewrite <- El, <- Ew, <- Eb.
  destruct (fold_left add_counts cs zeroCounts); reflexivity.
Qed.

End Driver.

Section Main.

Variable w : World.
Variable flags : Flags.

Lemma printed_closes l : printed (map ev_Close l) = [].
Proof. induction l; simpl; auto. Qed.

Lemma complaints_closes l : complaints (map ev_Close l) = [].
Proof. induction l; simpl; auto. Qed.

(** The run on a list of named sources, in terms of their outcomes. *)
Lemma main_named filenames :
  filenames <> [] ->
  let os := outcomes w (stdin w) filenames in
  let total := fold_left add_counts (map snd (successes os)) zeroCounts in
  printed (fst (main w flags filenames))
  = map (result_line (default_flags flags)) (successes os)
    ++ (if (1 <? List.length (successes os))%nat
        then [formatOutput total (default_flags flags) "total"] else [])
  /\ complaints (fst (main w flags filenames)) = diagnostics w os
  /\ snd (main w flags filenames) = (if existsb is_failure os then 1 else 0).
Proof.
  intros Hne os total. unfold main.
  destruct filenames as [|f fl]; [contradiction|].
  pose proof (process_files_outcomes w (default_flags flags) (f :: fl)
                (initial_state w)) as H.
  cbv zeta in H. cbn [initial_state stdin_now trace totalCounts
                      filesProcessed errorsOccurred printed complaints
                      app orb] in H.
  fold os in H. fold total in H.
  destruct H as (Hp & Hc & Ht & Hn & He).
  set (st := process_files w (default_flags flags) (f :: fl)
               (initial_state w)) in *.
  assert (Hif : (1 <? filesProcessed st)
                = (1 <? List.length (successes os))%nat).
  { rewrite Hn. destruct (Nat.ltb_spec 1 (List.length (successes os)));
      [apply Z.ltb_lt | apply Z.ltb_ge]; lia. }
  rewrite Hif.
  destruct (1 <? List.length (successes os))%nat;
    cbn [emit errorsOccurred trace]; rewrite He;
    destruct (existsb is_failure os); cbn [fst snd];
    rewrite ?printed_app, ?complaints_app, ?printed_closes,
      ?complaints_closes, ?Hp, ?Hc, ?Ht; cbn [printed complaints];
    rewrite ?app_nil_r; auto.
Qed.

End Main.

(** C5.  When named sources are given, the error stream receives one
    diagnostic for each source that failed to open or to count, in order;
    the lines printed are the result lines of the sources that succeeded
    and, if any, a total line computed from those sources alone; every
    name of the list gets its outcome, whatever happened to the ones
    before it; and the exit status is 1 if some source failed and 0
    otherwise. *)
Theorem named_sources_partial_failure
    (w : World) (flags : Flags) (filenames : list string) :
  filenames <> [] ->
  complaints (fst (main w flags filenames))
  = diagnostics w (outcomes w (stdin w) filenames)
  /\ printed (fst (main w flags filenames))
     = map (result_line (default_flags flags))
           (successes (outcomes w (stdin w) filenames))
       ++ (if (1 <? List.length (successes (outcomes w (stdin w) filenames)))%nat
           then [formatOutput
                   (fold_left add_counts
                      (map snd (successes (outcomes w (stdin w) filenames)))
                      zeroCounts)
                   (default_flags flags) "total"]
           else [])
  /\ totalCounts (process_files w (default_flags flags) filenames
                    (initial_state w))
     = fold_left add_counts
         (map snd (successes (outcomes w (stdin w) filenames))) zeroCounts
  /\ List.length (outcomes w (stdin w) filenames) = List.length filenames
  /\ snd (main w flags filenames)
     = (if existsb is_failure (outcomes w (stdin w) filenames) then 1 else 0).
Proof.
  intros Hne.
  destruct (main_named w flags filenames Hne) as (Hp & Hc & Hs).
  split; [exact Hc|]. split; [exact Hp|]. split.
  - apply (process_files_outcomes w (default_flags flags) filenames
             (initial_state w)).
  - split; [apply outcomes_length | exact Hs].
Qed.

(** C6.  When the sums fit the 64-bit counters, the lines a run prints are
    one result line for each source counted, in order, followed by a line
    labeled ["total"] with the field-wise sum of their counts if more than
    one source was counted, and by nothing if one or none was; a run on
    the implicit standard input counts at most one source. *)
Theorem total_line_iff_several
    (w : World) (flags : Flags) (filenames : list string) :
  Counts_in_range (sum_counts (map snd (counted w filenames))) ->
  printed (fst (main w flags filenames))
  = map (result_line (default_flags flags)) (counted w filenames)
    ++ (if (1 <? List.length (counted w filenames))%nat
        then [formatOutput (sum_counts (map snd (counted w filenames)))
                           (default_flags flags) "total"]
        else [])
  /\ ((List.length (counted w filenames) <= 1)%nat ->
      printed (fst (main w flags filenames))
      = map (result_line (default_flags flags)) (counted w filenames))
  /\ (filenames = [] -> (List.length (counted w filenames) <= 1)%nat).
Proof.
  intros Hfit.
  assert (Hlines :
    printed (fst (main w flags filenames))
    = map (result_line (default_flags flags)) (counted w filenames)
      ++ (if (1 <? List.length (counted w filenames))%nat
          then [formatOutput (sum_counts (map snd (counted w filenames)))
                             (default_flags flags) "total"]
          else [])).
  { destruct filenames as [|f fl].
    - unfold counted, run_outcomes, main.
      rewrite outcomes_cons. unfold source_outcome.
      change (String.eqb "-" "-") with true. cbv iota.
      destruct (count (stdin w)) as [[c [e|]] rest]; reflexivity.
    - destruct (main_named w flags (f :: fl)) as (Hp & _); [discriminate|].
      rewrite Hp. unfold counted, run_outcomes in *.
      rewrite fold_add_counts_sum by exact Hfit. reflexivity. }
  split; [exact Hlines|]. split.
  - intros Hle. rewrite Hlines.
    destruct (Nat.ltb_spec 1 (List.length (counted w filenames))); [lia|].
    apply app_nil_r.
  - intros ->. unfold counted, run_outcomes.
    rewrite outcomes_cons. unfold source_outcome.
    change (String.eqb "-" "-") with true. cbv iota.
    destruct (count (stdin w)) as [[c [e|]] rest]; simpl; lia.
Qed.

(** ** When files are closed *)

Section Closing.

Variable w : World.
Variable flags : Flags.

(** While the loop runs, [file] has been closed at most once, and not at
    all if no source has failed or if it is yet to be opened. *)
Definition closes_bounded (file : nat) (st : loop_state) : Prop :=
  (closes file (trace st) <= (if errorsOccurred st then 1 else 0))%nat
  /\ ((opened st <= file)%nat -> closes file (trace st) = 0%nat).

Lemma process_file_closes file st filename :
  closes_bounded file st ->
  closes_bounded file (process_file w flags st filename).
Proof.
  unfold closes_bounded, process_file, count_and_report.
  intros (Hle & Hnew).
  destruct (String.eqb filename "-").
  - destruct (count (stdin_now st)) as [[c [e|]] rest]; cbn;
      rewrite ?closes_app; cbn; destruct (errorsOccurred st); split; lia.
  - destruct (fs w filename) as [content | e].
    + destruct (count content) as [[c [e|]] rest]; cbn;
        rewrite ?closes_app; cbn; rewrite ?closes_app; cbn.
      * destruct (Nat.eqb_spec (opened st) file) as [Heq | Hne];
          destruct (errorsOccurred st); split; lia.
      * destruct (errorsOccurred st); split; lia.
    + cbn. rewrite ?closes_app; cbn. destruct (errorsOccurred st); split; lia.
Qed.

Lemma process_files_closes file filenames : forall st,
  closes_bounded file st ->
  closes_bounded file (process_files w flags filenames st).
Proof.
  unfold process_files.
  induction filenames as [|f fl IH]; intros st H; cbn [fold_left]; auto.
  apply IH, process_file_closes, H.
Qed.

Lemma initial_closes file : closes_bounded file (initial_state w).
Proof. unfold closes_bounded; cbn. split; lia. Qed.

End Closing.

(** C9.  In every run, as long as no source has failed the loop closes no
    file, and it closes no file more than once.  Two runs in the sample
    world show what follows.  With the readable files [a] and
    [b], file [a] is closed only when [main] returns, after [b] has been
    opened and counted and the total printed.  With [a] and a missing
    file, the run ends in [os.Exit(1)] and [a] is never closed.  With the
    file [bad], whose reading fails, the file is closed at once. *)
Theorem close_is_deferred_to_the_end_of_main :
  (forall w flags filenames file,
     (closes file (trace (process_files w flags filenames (initial_state w)))
      <= (if errorsOccurred (process_files w flags filenames (initial_state w))
          then 1 else 0))%nat)
  /\ main sample_world no_flags ["a"; "b"]%string
  = ([ev_Open 0 "a"; ev_Println "       1       1       2 a";
      ev_Open 1 "b"; ev_Println "       1       2       4 b";
      ev_Println "       2       3       6 total";
      ev_Close 1; ev_Close 0], 0)
  /\ main sample_world no_flags ["a"; "missing"]%string
     = ([ev_Open 0 "a"; ev_Println "       1       1       2 a";
         ev_Stderr ("gowc: missing: open missing: no such file or directory"
                    ++ nl)], 1)
  /\ closes 0 (fst (main sample_world no_flags ["a"; "missing"]%string)) = 0%nat
  /\ main sample_world no_flags ["bad"; "a"]%string
     = ([ev_Open 0 "bad";
         ev_Stderr ("gowc: bad: error reading input: read bad: input/output error"
                    ++ nl);
         ev_Close 0;
         ev_Open 1 "a"; ev_Println "       1       1       2 a"], 1).
Proof.
  split.
  - intros w flags filenames file.
    apply (process_files_closes w flags file filenames), initial_closes.
  - repeat split; reflexivity.
Qed.

(** ** The theorems at work on the sample inputs *)

Lemma hello_fits : fits_int64 (delivered hello_reader).
Proof. vm_compute. discriminate. Defined.

Lemma count_words_are_maximal_runs_witness :
  fits_int64 (delivered hello_reader)
  /\ Words (count_counts hello_reader)
     = Z.of_nat (List.length (maximal_runs (delivered hello_reader))).
Proof.
  split; [exact hello_fits|].
  exact (proj1 (count_words_are_maximal_runs hello_reader hello_fits)).
Defined.

Lemma chunk_size_invariance_witness :
  (1 <= 1)%nat /\ (1 <= 5)%nat
  /\ count_result (chunked_reader 1 hello_world)
     = count_result (chunked_reader 5 hello_world).
Proof.
  assert (H1 : (1 <= 1)%nat) by lia.
  assert (H5 : (1 <= 5)%nat) by lia.
  split; [exact H1|]. split; [exact H5|].
  exact (proj1 (chunk_size_invariance hello_world 1 5 H1 H5)).
Defined.

Lemma count_lines_are_newlines_witness :
  fits_int64 (delivered hello_reader)
  /\ Lines (count_counts hello_reader) = newlines (delivered hello_reader).
Proof.
  split; [exact hello_fits|].
  exact (proj1 (count_lines_are_newlines hello_reader hello_fits)).
Defined.

Lemma count_bytes_is_length_witness :
  fits_int64 (delivered hello_reader)
  /\ Bytes (count_counts hello_reader)
     = Z.of_nat (List.length (delivered hello_reader)).
Proof.
  split; [exact hello_fits|].
  exact (proj1 (count_bytes_is_length hello_reader hello_fits)).
Defined.

Lemma count_bounds_witness :
  fits_int64 (delivered hello_reader)
  /\ 0 <= Lines (count_counts hello_reader) <= Bytes (count_counts hello_reader)
  /\ 0 <= Words (count_counts hello_reader) <= Bytes (count_counts hello_reader).
Proof.
  split; [exact hello_fits|].
  exact (count_bounds hello_reader hello_fits).
Defined.

Lemma count_concat_witness :
  fits_int64 (bytes_of "foo " ++ bytes_of "bar")
  /\ Lines (count_bytes (bytes_of "foo " ++ bytes_of "bar"))
     = Lines (count_bytes (bytes_of "foo ")) + Lines (count_bytes (bytes_of "bar")).
Proof.
  assert (H : fits_int64 (bytes_of "foo " ++ bytes_of "bar"))
    by (vm_compute; discriminate).
  split; [exact H|].
  exact (proj1 (count_concat (bytes_of "foo ") (bytes_of "bar") H)).
Defined.

Lemma named_sources_partial_failure_witness :
  ["missing"; "a"; "bad"; "b"]%string <> []
  /\ snd (main sample_world no_flags ["missing"; "a"; "bad"; "b"]%string)
     = (if existsb is_failure
             (outcomes sample_world (stdin sample_world)
                       ["missing"; "a"; "bad"; "b"]%string)
        then 1 else 0).
Proof.
  assert (H : ["missing"; "a"; "bad"; "b"]%string <> []) by discriminate.
  split; [exact H|].
  exact (proj2 (proj2 (proj2 (proj2
    (named_sources_partial_failure sample_world no_flags _ H))))).
Defined.

Lemma total_line_iff_several_witness :
  Counts_in_range
    (sum_counts (map snd (counted sample_world ["a"; "b"; "c"]%string)))
  /\ printed (fst (main sample_world no_flags ["a"; "b"; "c"]%string))
     = map (result_line (default_flags no_flags))
           (counted sample_world ["a"; "b"; "c"]%string)
       ++ (if (1 <? List.length (counted sample_world ["a"; "b"; "c"]%string))%nat
           then [formatOutput
                   (sum_counts
                      (map snd (counted sample_world ["a"; "b"; "c"]%string)))
                   (default_flags no_flags) "total"]
           else []).
Proof.
  assert (H : Counts_in_range
                (sum_counts
                   (map snd (counted sample_world ["a"; "b"; "c"]%string))))
    by (vm_compute; repeat split; discriminate).
  split; [exact H|].
  exact (proj1 (total_line_iff_several sample_world no_flags _ H)).
Defined.

Lemma formatOutput_layout_witness :
  - 10 ^ 7 < 12 < 10 ^ 8
  /\ String.length (field true 12) = 8%nat
  /\ formatOutput (mkCounts 1 2 12) all_flags "a.txt"
     = "       1       2      12 a.txt"%string.
Proof.
  assert (H : - 10 ^ 7 < 12 < 10 ^ 8) by lia.
  split; [exact H|]. split.
  - exact (proj1 (proj2 (proj2 (proj2 (proj2
      (formatOutput_layout (mkCounts 1 2 12) all_flags "a.txt"))))) 12 H).
  - reflexivity.
Defined.

(** * Further properties of the counter *)

Section CounterMore.

Lemma newline_is_space : is_space newline = true.
Proof. reflexivity. Qed.

(** A byte adds to the line count or to the word count, never to both. *)
Lemma newlines_word_starts_le S : forall prev,
  newlines S + Z.of_nat (word_starts prev S) <= Z.of_nat (List.length S).
Proof.
  induction S as [|b S IH]; intros prev.
  - unfold newlines; simpl; lia.
  - rewrite newlines_cons. cbn [word_starts List.length].
    destruct (Byte.eqb b newline) eqn:E.
    + apply Byte.byte_dec_bl in E. subst b. rewrite newline_is_space.
      specialize (IH false). lia.
    + destruct (is_space b).
      * specialize (IH false). lia.
      * specialize (IH true). destruct prev; lia.
Qed.

(** Two words have a whitespace byte between them. *)
Lemma word_starts_twice_le S : forall prev,
  (2 * word_starts prev S <= List.length S + (if prev then 0 else 1))%nat.
Proof.
  induction S as [|b S IH]; intros prev; cbn [word_starts List.length].
  - destruct prev; lia.
  - destruct (is_space b).
    + specialize (IH false). cbv iota in IH. destruct prev; lia.
    + specialize (IH true). cbv iota in IH. destruct prev; lia.
Qed.

Lemma word_starts_zero_iff S :
  word_starts false S = 0%nat <-> forallb is_space S = true.
Proof.
  induction S as [|b S IH]; cbn [word_starts forallb]; [tauto|].
  destruct (is_space b); cbn [andb]; [exact IH|].
  split; [lia | discriminate].
Qed.

Lemma word_starts_no_space S : forall prev,
  forallb (fun b => negb (is_space b)) S = true ->
  word_starts prev S
  = (if prev then 0 else match S with [] => 0 | _ => 1 end)%nat.
Proof.
  induction S as [|b S IH]; intros prev H; cbn [word_starts forallb] in *.
  - destruct prev; reflexivity.
  - apply andb_true_iff in H as [Hb HS]. apply negb_true_iff in Hb.
    rewrite Hb, (IH true HS). destruct prev; reflexivity.
Qed.

Lemma count_loop_rest pre : forall st rr post,
  Forall (fun x => err x = None) pre -> err rr <> None ->
  snd (count_loop (pre ++ rr :: post) st) = post.
Proof.
  induction pre as [|x pre IH]; intros st rr post Hpre Hrr.
  - cbn [app count_loop]. destruct (err rr) as [[|msg]|]; [reflexivity..|].
    contradiction.
  - inversion Hpre as [|? ? Hx Hpre']; subst.
    cbn [app count_loop]. rewrite Hx. apply IH; assumption.
Qed.

Lemma delivered_app_stop pre : forall rr post,
  Forall (fun x => err x = None) pre -> err rr <> None ->
  delivered (pre ++ rr :: post) = delivered (pre ++ [rr])
  /\ failure (pre ++ rr :: post) = failure (pre ++ [rr]).
Proof.
  induction pre as [|x pre IH]; intros rr post Hpre Hrr.
  - cbn [app delivered failure]. destruct (err rr) as [[|msg]|]; auto.
    contradiction.
  - inversion Hpre as [|? ? Hx Hpre']; subst.
    cbn [app delivered failure]. rewrite Hx.
    destruct (IH rr post Hpre' Hrr) as (-> & ->). auto.
Qed.

Lemma count_loop_rest_unfailing r : forall st,
  Forall (fun x => err x = None) r -> snd (count_loop r st) = [].
Proof.
  induction r as [|x r IH]; intros st H; [reflexivity|].
  inversion H as [|? ? Hx Hr]; subst. cbn [count_loop]. rewrite Hx.
  apply IH, Hr.
Qed.

Lemma failure_unfailing_reader r :
  Forall (fun x => err x = None) r -> failure r = None.
Proof.
  induction r as [|x r IH]; intros H; [reflexivity|].
  inversion H as [|? ? Hx Hr]; subst. cbn [failure]. rewrite Hx. auto.
Qed.

End CounterMore.

(** X1.  What [count] returns is fixed by the bytes the reader delivers
    and by the failure, if any, that ends the reading: the counts are those
    of the bytes delivered, the failing call included, and the error is nil
    after a clean end of the stream and otherwise the reader's error with
    the text ["error reading input: "] before its own.  [io.EOF] itself is
    never returned. *)
Theorem count_result_by_delivery (r : Reader) :
  count_result r
  = (count_bytes (delivered r), option_map wrap_read_error (failure r))
  /\ (forall e, failure r = Some e ->
        count_err r
        = Some (other_error ("error reading input: " ++ Error e)))
  /\ (count_err r = None <-> failure r = None)
  /\ count_err r <> Some io_EOF.
Proof.
  assert (H : count_result r
              = (count_bytes (delivered r),
                 option_map wrap_read_error (failure r))).
  { rewrite (surjective_pairing (count_result r)).
    fold (count_counts r) (count_err r).
    rewrite count_counts_delivered, count_err_failure. reflexivity. }
  split; [exact H|].
  unfold count_err. rewrite H. cbn [snd].
  split; [|split].
  - intros e ->. reflexivity.
  - destruct (failure r); cbn; split; congruence.
  - destruct (failure r); cbn; discriminate.
Qed.

(** X2.  For every reader whose stream fits the 64-bit counters, the line
    count and the word count together do not exceed the byte count, and
    twice the word count is at most the byte count plus one. *)
Theorem count_lines_words_share_bytes (r : Reader) :
  fits_int64 (delivered r) ->
  Lines (count_counts r) + Words (count_counts r) <= Bytes (count_counts r)
  /\ 2 * Words (count_counts r) <= Bytes (count_counts r) + 1.
Proof.
  intros Hfit.
  rewrite count_counts_Lines, count_counts_Words, count_counts_Bytes.
  pose proof (newlines_bounds (delivered r)) as Hn.
  pose proof (word_starts_le (delivered r) false) as Hw.
  pose proof (newlines_word_starts_le (delivered r) false) as Hs.
  pose proof (word_starts_twice_le (delivered r) false) as Ht.
  cbv iota in Ht.
  rewrite (fits_wrap (delivered r) (newlines (delivered r))) by auto.
  rewrite (fits_wrap (delivered r) (Z.of_nat (word_starts _ _))) by (auto; lia).
  rewrite (fits_wrap (delivered r) (Z.of_nat (List.length _))) by (auto; lia).
  lia.
Qed.

(** X3.  For every reader whose stream fits the 64-bit counters, the word
    count is zero exactly when every byte delivered is whitespace, and it
    is one when the stream is not empty and holds no whitespace byte. *)
Theorem count_words_zero_or_one (r : Reader) :
  fits_int64 (delivered r) ->
  (Words (count_counts r) = 0 <-> forallb is_space (delivered r) = true)
  /\ (delivered r <> [] ->
      forallb (fun b => negb (is_space b)) (delivered r) = true ->
      Words (count_counts r) = 1).
Proof.
  intros Hfit. rewrite count_counts_Words.
  pose proof (word_starts_le (delivered r) false) as Hw.
  rewrite (fits_wrap (delivered r) (Z.of_nat (word_starts _ _))) by (auto; lia).
  split.
  - rewrite <- word_starts_zero_iff. lia.
  - intros Hne Hall. rewrite (word_starts_no_space _ false Hall).
    destruct (delivered r); [contradiction | reflexivity].
Qed.

(** X4.  For all byte sequences [A] and [B] whose concatenation fits the
    64-bit counters, none of the three counts of [A] exceeds that of
    [A ++ B]: more input never lowers a count. *)
Theorem count_prefix_monotone (A B : list byte) :
  fits_int64 (A ++ B) ->
  Lines (count_bytes A) <= Lines (count_bytes (A ++ B))
  /\ Words (count_bytes A) <= Words (count_bytes (A ++ B))
  /\ Bytes (count_bytes A) <= Bytes (count_bytes (A ++ B)).
Proof.
  intros Hfit.
  assert (HA : fits_int64 A)
    by (unfold fits_int64 in *; rewrite length_app in Hfit; lia).
  unfold count_bytes.
  rewrite !count_counts_Lines, !count_counts_Bytes, !count_counts_Words.
  rewrite !delivered_whole.
  pose proof (newlines_bounds A). pose proof (newlines_bounds B).
  pose proof (newlines_bounds (A ++ B)).
  pose proof (word_starts_le A false).
  pose proof (word_starts_le (A ++ B) false).
  rewrite (fits_wrap (A ++ B) (newlines (A ++ B))) by auto.
  rewrite (fits_wrap A (newlines A)) by auto.
  rewrite (fits_wrap (A ++ B) (Z.of_nat (List.length (A ++ B)))) by (auto; lia).
  rewrite (fits_wrap A (Z.of_nat (List.length A))) by (auto; lia).
  rewrite (fits_wrap (A ++ B) (Z.of_nat (word_starts false (A ++ B))))
    by (auto; lia).
  rewrite (fits_wrap A (Z.of_nat (word_starts false A))) by (auto; lia).
  rewrite newlines_app, length_app, word_starts_app. lia.
Qed.

(** X5.  [count] stops reading at the first call that reports an error or
    the end of the stream: what the reader holds after that call is left
    unread and has no part in the result.  A reader none of whose calls
    reports an error is read to its end and counted without error. *)
Theorem count_stops_at_first_error
    (pre : Reader) (rr : ReadResult) (post : Reader) :
  Forall (fun x => err x = None) pre -> err rr <> None ->
  count (pre ++ rr :: post) = (count_result (pre ++ [rr]), post)
  /\ count_rest pre = [] /\ count_err pre = None.
Proof.
  intros Hpre Hrr. split; [|split].
  - rewrite (surjective_pairing (count (pre ++ rr :: post))).
    f_equal.
    + change (fst (count (pre ++ rr :: post)))
        with (count_result (pre ++ rr :: post)).
      destruct (delivered_app_stop pre rr post Hpre Hrr) as (HD & HF).
      apply count_result_ext; assumption.
    + apply count_loop_rest; assumption.
  - apply count_loop_rest_unfailing, Hpre.
  - rewrite count_err_failure, failure_unfailing_reader; auto.
Qed.

(** * Further properties of the driver *)

Section DriverMore.

Variable w : World.
Variable flags : Flags.



Lemma opened_files_app t t' :
  opened_files (t ++ t') = opened_files t ++ opened_files t'.
Proof.
  induction t as [|e t IH]; simpl; [reflexivity|].
  destruct e; simpl; congruence.
Qed.

(** The files opened so far are numbered from 0, and the deferred calls
    hold them all, the last opened first. *)
Definition files_in_order (st : loop_state) : Prop :=
  opened_files (trace st) = seq 0 (opened st)
  /\ deferred st = rev (seq 0 (opened st)).

Lemma process_file_in_order st filename :
  files_in_order st -> files_in_order (process_file w flags st filename).
Proof.
  unfold files_in_order, process_file, count_and_report.
  intros (Ho & Hd).
  assert (Ho' : opened_files (trace st) ++ [opened st]
                = seq 0 (Datatypes.S (opened st)))
    by (rewrite seq_S, Ho; reflexivity).
  assert (Hd' : opened st :: deferred st
                = rev (seq 0 (Datatypes.S (opened st))))
    by (rewrite seq_S, rev_app_distr, Hd; reflexivity).
  destruct (String.eqb filename "-").
  - destruct (count (stdin_now st)) as [[c [e|]] rest]; cbn;
      rewrite ?opened_files_app; cbn; rewrite ?app_nil_r; auto.
  - destruct (fs w filename) as [content | e].
    + destruct (count content) as [[c [e|]] rest]; cbn;
        rewrite ?opened_files_app; cbn; rewrite ?opened_files_app; cbn;
        rewrite ?app_nil_r; auto.
    + cbn. rewrite ?opened_files_app; cbn; rewrite ?app_nil_r; auto.
Qed.

Lemma process_files_in_order filenames : forall st,
  files_in_order st -> files_in_order (process_files w flags filenames st).
Proof.
  unfold process_files.
  induction filenames as [|f fl IH]; intros st H; cbn [fold_left]; auto.
  apply IH, process_file_in_order, H.
Qed.

Lemma initial_in_order : files_in_order (initial_state w).
Proof. split; reflexivity. Qed.

Lemma closes_map_Close_notin file l :
  ~ In file l -> closes file (map ev_Close l) = 0%nat.
Proof.
  induction l as [|a l IH]; intros H; simpl; [reflexivity|].
  destruct (Nat.eqb_spec a file) as [-> | Hne].
  - exfalso. apply H. left. reflexivity.
  - rewrite IH; [reflexivity|]. intros Hin. apply H. right. exact Hin.
Qed.

Lemma closes_map_Close_NoDup file l :
  NoDup l -> (closes file (map ev_Close l) <= 1)%nat.
Proof.
  induction 1 as [|a l Ha Hl IH]; simpl; [lia|].
  destruct (Nat.eqb_spec a file) as [-> | Hne]; [|lia].
  rewrite closes_map_Close_notin by exact Ha. lia.
Qed.

Lemma closes_map_Close_in file l :
  NoDup l -> In file l -> closes file (map ev_Close l) = 1%nat.
Proof.
  induction 1 as [|a l Ha Hl IH]; intros Hin; simpl; [contradiction|].
  destruct (Nat.eqb_spec a file) as [-> | Hne].
  - rewrite closes_map_Close_notin by exact Ha. reflexivity.
  - destruct Hin as [-> | Hin]; [contradiction|]. rewrite IH; auto.
Qed.

Lemma NoDup_rev_seq n : NoDup (rev (seq 0 n)).
Proof. apply NoDup_rev, seq_NoDup. Qed.









End DriverMore.

Lemma main_without_names_eq (w : World) (flags : Flags) :
  main w flags []
  = match failure (stdin w) with
    | None =>
        ([ev_Println (formatOutput (count_bytes (delivered (stdin w)))
                                   (default_flags flags) "")], 0)
    | Some e =>
        ([ev_Stderr (Args0 w ++ ": error reading input: " ++ Error e ++ nl)],
         1)
    end.
Proof.
  unfold main.
  pose proof (count_counts_delivered (stdin w)) as Hc.
  pose proof (count_err_failure (stdin w)) as He.
  unfold count_counts, count_err, count_result in Hc, He.
  destruct (count (stdin w)) as [[c e] rest]. cbn [fst snd] in Hc, He.
  subst c e. destruct (failure (stdin w)) as [e|]; reflexivity.
Qed.

(** X6.  With no file name, the run counts standard input and touches no
    file.  If the reading ends cleanly it prints one line, without a name,
    with the counts of the bytes read, and the exit status is 0; if the
    reading fails it prints nothing, writes the program name and the
    wrapped error to the error stream, and the exit status is 1. *)
Theorem main_without_names (w : World) (flags : Flags) :
  main w flags []
  = match failure (stdin w) with
    | None =>
        ([ev_Println (formatOutput (count_bytes (delivered (stdin w)))
                                   (default_flags flags) "")], 0)
    | Some e =>
        ([ev_Stderr (Args0 w ++ ": error reading input: " ++ Error e ++ nl)],
         1)
    end.
Proof. apply main_without_names_eq. Qed.


Section MainMore.

Variable w : World.
Variable flags : Flags.

(** The run on named sources, from the state the loop ends in. *)
Lemma main_named_trace filenames :
  filenames <> [] ->
  let st := process_files w (default_flags flags) filenames (initial_state w) in
  let t := trace st
           ++ (if 1 <? filesProcessed st
               then [ev_Println (formatOutput (totalCounts st)
                                              (default_flags flags) "total")]
               else []) in
  main w flags filenames
  = if errorsOccurred st then (t, 1)
    else (t ++ map ev_Close (deferred st), 0).
Proof.
  intros Hne. destruct filenames as [|f fl]; [contradiction|].
  cbv zeta. unfold main.
  destruct (1 <? filesProcessed _); cbn [emit errorsOccurred trace deferred];
    rewrite ?app_nil_r; reflexivity.
Qed.

Lemma count_counts_in_range r : Counts_in_range (count_counts r).
Proof.
  unfold Counts_in_range.
  rewrite count_counts_Lines, count_counts_Words, count_counts_Bytes.
  auto using Int64_wrap_in_range.
Qed.

Lemma default_flags_idem : default_flags (default_flags flags) = default_flags flags.
Proof. destruct flags as [[] [] []]; reflexivity. Qed.


End MainMore.


(** X9.  No run closes a file more than once. *)
Theorem no_file_is_closed_twice
    (w : World) (flags : Flags) (filenames : list string) (file : nat) :
  (closes file (fst (main w flags filenames)) <= 1)%nat.
Proof.
  destruct filenames as [|f fl].
  - rewrite main_without_names_eq.
    destruct (failure (stdin w)); cbn; lia.
  - rewrite (main_named_trace w flags (f :: fl)) by discriminate. cbv zeta.
    set (st := process_files w (default_flags flags) (f :: fl)
                 (initial_state w)).
    pose proof (process_files_closes w (default_flags flags) file (f :: fl)
                  (initial_state w) (initial_closes w file)) as (Hle & _).
    pose proof (process_files_in_order w (default_flags flags) (f :: fl)
                  (initial_state w) (initial_in_order w)) as (_ & Hd).
    fold st in Hle, Hd.
    assert (Ht : closes file
                   (if 1 <? filesProcessed st
                    then [ev_Println (formatOutput (totalCounts st)
                                        (default_flags flags) "total")]
                    else []) = 0%nat)
      by (destruct (1 <? filesProcessed st); reflexivity).
    destruct (errorsOccurred st); cbn [fst]; rewrite !closes_app, ?Ht.
    + lia.
    + rewrite Hd.
      pose proof (closes_map_Close_NoDup file _ (NoDup_rev_seq (opened st))).
      lia.
Qed.

(** X10.  A run that ends with exit status 0 closes every file it opened
    exactly once, and only after everything else: its events are events
    without any close, followed by the closing of the opened files, the
    last opened first. *)
Theorem clean_run_closes_files_last
    (w : World) (flags : Flags) (filenames : list string) :
  snd (main w flags filenames) = 0 ->
  exists t,
    fst (main w flags filenames) = t ++ map ev_Close (rev (opened_files t))
    /\ (forall file, closes file t = 0%nat)
    /\ (forall file, In file (opened_files t) ->
          closes file (fst (main w flags filenames)) = 1%nat).
Proof.
  destruct filenames as [|f fl].
  - rewrite main_without_names_eq.
    destruct (failure (stdin w)); [discriminate|]. intros _.
    exists [ev_Println (formatOutput (count_bytes (delivered (stdin w)))
                                     (default_flags flags) "")].
    split; [reflexivity|]. split; [reflexivity|].
    intros file [].
  - rewrite (main_named_trace w flags (f :: fl)) by discriminate. cbv zeta.
    set (st := process_files w (default_flags flags) (f :: fl)
                 (initial_state w)).
    pose proof (process_files_in_order w (default_flags flags) (f :: fl)
                  (initial_state w) (initial_in_order w)) as (Ho & Hd).
    fold st in Ho, Hd.
    destruct (errorsOccurred st) eqn:He; [discriminate|]. intros _.
    set (tail := if 1 <? filesProcessed st
                 then [ev_Println (formatOutput (totalCounts st)
                                     (default_flags flags) "total")]
                 else []).
    assert (Htail : opened_files tail = [] /\ forall file, closes file tail = 0%nat)
      by (unfold tail; destruct (1 <? filesProcessed st); split; reflexivity).
    destruct Htail as (Hto & Htc).
    assert (Hopen : opened_files (trace st ++ tail) = seq 0 (opened st))
      by (rewrite opened_files_app, Hto, app_nil_r; exact Ho).
    assert (Hnone : forall file, closes file (trace st ++ tail) = 0%nat).
    { intros file. rewrite closes_app, Htc.
      pose proof (process_files_closes w (default_flags flags) file (f :: fl)
                    (initial_state w) (initial_closes w file)) as (Hle & _).
      fold st in Hle. rewrite He in Hle. lia. }
    exists (trace st ++ tail). cbn [fst]. rewrite Hopen, Hd.
    split; [reflexivity|]. split; [exact Hnone|].
    intros file Hin. rewrite closes_app, Hnone.
    rewrite closes_map_Close_in; auto using NoDup_rev_seq.
    apply in_rev. rewrite rev_involutive. exact Hin.
Qed.



(** X13.  Giving none of the flags is the same as giving all three, and a
    selection with a flag in it is kept as given; so a run with the flags
    already defaulted is the same run, at least one count is selected, and
    every line formatted for a run holds at least one field of eight
    characters or more. *)
Theorem default_flags_select
    (w : World) (flags : Flags) (filenames : list string) :
  main w (default_flags flags) filenames = main w flags filenames
  /\ (selected_fields flags = 0%nat -> default_flags flags = mkFlags true true true)
  /\ ((1 <= selected_fields flags)%nat -> default_flags flags = flags)
  /\ (1 <= selected_fields (default_flags flags))%nat
  /\ (forall c name,
        (8 <= String.length (formatOutput c (default_flags flags) name))%nat).
Proof.
  split; [|split; [|split; [|split]]].
  - unfold main. rewrite default_flags_idem. reflexivity.
  - destruct flags as [[] [] []]; cbn; intros H; try discriminate; reflexivity.
  - destruct flags as [[] [] []]; cbn; intros H; try reflexivity; lia.
  - destruct flags as [[] [] []]; cbn; lia.
  - intros c name. rewrite formatOutput_fields.
    rewrite !string_length_app.
    pose proof (pad_left_length 8 (format_d (Lines c))) as Hl.
    pose proof (pad_left_length 8 (format_d (Words c))) as Hw.
    pose proof (pad_left_length 8 (format_d (Bytes c))) as Hb.
    destruct flags as [[] [] []]; cbn [default_flags ShowLines ShowWords
      ShowBytes negb andb field]; cbn [String.length]; lia.
Qed.

(** X14.  When every count has a decimal text of at most eight characters,
    the length of the output line is eight times the number of selected
    fields, plus the length of the name and one more if the name is not
    empty: the names of all such lines begin in the same column. *)
Theorem formatOutput_columns (c : Counts) (f : Flags) (name : string) :
  eight_columns c ->
  String.length (formatOutput c f name) = fixed_width_length f name.
Proof.
  intros (Hl & Hw & Hb).
  rewrite formatOutput_fields, !string_length_app.
  unfold fixed_width_length, selected_fields, field.
  pose proof (pad_left_length 8 (format_d (Lines c))) as Pl.
  pose proof (pad_left_length 8 (format_d (Words c))) as Pw.
  pose proof (pad_left_length 8 (format_d (Bytes c))) as Pb.
  pose proof (format_d_length _ Hl). pose proof (format_d_length _ Hw).
  pose proof (format_d_length _ Hb).
  destruct (ShowLines f), (ShowWords f), (ShowBytes f);
    cbn [String.length]; lia.
Qed.

(** X15.  When standard input is named twice and its first reading ends
    cleanly with nothing left to read, the second reading counts nothing:
    the run prints the counts of standard input, then a line of zeros,
    then a total equal to the first line's counts; it writes nothing to
    the error stream and the exit status is 0. *)
Theorem stdin_named_twice (w : World) (flags : Flags) :
  failure (stdin w) = None -> count_rest (stdin w) = [] ->
  printed (fst (main w flags ["-"; "-"]%string))
  = [formatOutput (count_bytes (delivered (stdin w))) (default_flags flags) "";
     formatOutput (mkCounts 0 0 0) (default_flags flags) "";
     formatOutput (count_bytes (delivered (stdin w))) (default_flags flags)
                  "total"]
  /\ complaints (fst (main w flags ["-"; "-"]%string)) = []
  /\ snd (main w flags ["-"; "-"]%string) = 0.
Proof.
  intros Hf Hrest.
  destruct (main_named w flags ["-"; "-"]%string) as (Hp & Hc & Hs);
    [discriminate|].
  assert (Hos : outcomes w (stdin w) ["-"; "-"]%string
                = [Counted "" (count_bytes (delivered (stdin w)));
                   Counted "" (mkCounts 0 0 0)]).
  { pose proof (count_counts_delivered (stdin w)) as Hcd.
    pose proof (count_err_failure (stdin w)) as He.
    unfold count_counts, count_err, count_rest, count_result in Hcd, He, Hrest.
    rewrite Hf in He. cbn [option_map] in He.
    rewrite outcomes_cons. unfold source_outcome at 1 2.
    change (String.eqb "-" "-") with true. cbv iota.
    destruct (count (stdin w)) as [[c e] rest].
    cbn [fst snd] in Hcd, He, Hrest. subst c e rest. cbn [fst snd].
    reflexivity. }
  rewrite Hp, Hc, Hs, Hos.
  assert (Htot : fold_left add_counts
                   (map snd (successes
                      [Counted "" (count_bytes (delivered (stdin w)));
                       Counted "" (mkCounts 0 0 0)])) zeroCounts
                 = count_bytes (delivered (stdin w))).
  { pose proof (count_counts_in_range (stdin w)) as (Rl & Rw & Rb).
    rewrite count_counts_delivered in Rl, Rw, Rb.
    cbn [successes map snd fold_left]. unfold add_counts, Int64.add.
    cbn [zeroCounts Lines Words Bytes].
    rewrite !Z.add_0_l, !Z.add_0_r.
    rewrite !Int64_wrap_small
      by (assumption || apply Int64_wrap_in_range).
    destruct (count_bytes (delivered (stdin w))); reflexivity. }
  rewrite Htot. repeat split.
Qed.

(** ** The further theorems at work on the sample inputs *)

Lemma count_lines_words_share_bytes_witness :
  fits_int64 (delivered hello_reader)
  /\ Lines (count_counts hello_reader) + Words (count_counts hello_reader)
     <= Bytes (count_counts hello_reader).
Proof.
  split; [exact hello_fits|].
  exact (proj1 (count_lines_words_share_bytes hello_reader hello_fits)).
Defined.

Lemma count_words_zero_or_one_witness :
  fits_int64 (delivered hello_reader)
  /\ (Words (count_counts hello_reader) = 0
      <-> forallb is_space (delivered hello_reader) = true).
Proof.
  split; [exact hello_fits|].
  exact (proj1 (count_words_zero_or_one hello_reader hello_fits)).
Defined.

Lemma count_prefix_monotone_witness :
  fits_int64 (bytes_of "foo " ++ bytes_of "bar")
  /\ Words (count_bytes (bytes_of "foo "))
     <= Words (count_bytes (bytes_of "foo " ++ bytes_of "bar")).
Proof.
  assert (H : fits_int64 (bytes_of "foo " ++ bytes_of "bar"))
    by (vm_compute; discriminate).
  split; [exact H|].
  exact (proj1 (proj2 (count_prefix_monotone (bytes_of "foo ") (bytes_of "bar") H))).
Defined.

Lemma count_stops_at_first_error_witness :
  Forall (fun x => err x = None) [mkRead (bytes_of "ab") None]
  /\ err (mkRead (bytes_of "c d") (Some io_EOF)) <> None
  /\ count ([mkRead (bytes_of "ab") None]
            ++ mkRead (bytes_of "c d") (Some io_EOF)
               :: [mkRead (bytes_of "more") None])
     = (count_result ([mkRead (bytes_of "ab") None]
                      ++ [mkRead (bytes_of "c d") (Some io_EOF)]),
        [mkRead (bytes_of "more") None]).
Proof.
  assert (H1 : Forall (fun x => err x = None) [mkRead (bytes_of "ab") None])
    by (repeat constructor).
  assert (H2 : err (mkRead (bytes_of "c d") (Some io_EOF)) <> None)
    by discriminate.
  split; [exact H1|]. split; [exact H2|].
  exact (proj1 (count_stops_at_first_error _ _ [mkRead (bytes_of "more") None]
                  H1 H2)).
Defined.

Lemma clean_run_closes_files_last_witness :
  snd (main sample_world no_flags ["a"; "b"]%string) = 0
  /\ exists t,
       fst (main sample_world no_flags ["a"; "b"]%string)
       = t ++ map ev_Close (rev (opened_files t))
       /\ (forall file, closes file t = 0%nat)
       /\ (forall file, In file (opened_files t) ->
             closes file (fst (main sample_world no_flags ["a"; "b"]%string))
             = 1%nat).
Proof.
  assert (H : snd (main sample_world no_flags ["a"; "b"]%string) = 0)
    by reflexivity.
  split; [exact H|].
  exact (clean_run_closes_files_last sample_world no_flags _ H).
Defined.



Lemma formatOutput_columns_witness :
  eight_columns (mkCounts 1 2 12)
  /\ String.length (formatOutput (mkCounts 1 2 12) all_flags "a.txt")
     = fixed_width_length all_flags "a.txt".
Proof.
  assert (H : eight_columns (mkCounts 1 2 12))
    by (unfold eight_columns; cbn [Lines Words Bytes]; lia).
  split; [exact H|].
  exact (formatOutput_columns (mkCounts 1 2 12) all_flags "a.txt" H).
Defined.

Lemma stdin_named_twice_witness :
  failure (stdin sample_world) = None
  /\ count_rest (stdin sample_world) = []
  /\ snd (main sample_world no_flags ["-"; "-"]%string) = 0.
Proof.
  assert (H1 : failure (stdin sample_world) = None) by reflexivity.
  assert (H2 : count_rest (stdin sample_world) = []) by reflexivity.
  split; [exact H1|]. split; [exact H2|].
  exact (proj2 (proj2 (stdin_named_twice sample_world no_flags H1 H2))).
Defined.
